(** * Bacon score: the actor/movie graph of BaconScore.c and its BFS

    A shallow embedding of [BaconScore.c].  The program reads a dataset of
    movie headers and actor names, builds a bipartite pointer graph (every
    actor carries the list of the movies it appears in, every movie carries
    its cast) and answers queries with a breadth-first search from the
    actor named "Kevin Bacon".

    Pointers are modelled by the allocation index of the node they point
    to: an [actorNode *] is the position of the node in the global list
    [headActors] (every actor is appended to that list as soon as it is
    allocated), a [movieNode *] is the position of the node in the
    allocation order of movies.  The [next] fields of the C structures are
    the spines of the Rocq lists.  A C string is the [string] of its
    characters before the terminating NUL. *)

From Stdlib Require Import ZArith Ascii String.
From stdpp Require Import base list strings pretty.

Local Open Scope string_scope.

(** ** Data model *)

(** [struct actorNode], without [next].  [visited] is the C flag (0 / 1);
    [level] is a C [int], modelled without wrap-around. *)
Record actorNode := ActorNode {
  actorName : string;
  movies    : list nat;
  visited   : bool;
  level     : Z
}.

(** [struct movieNode], without [next]. [actors] is the cast. *)
Record movieNode := MovieNode {
  movieName : string;
  actors    : list nat
}.

(** The two global lists, and the movies allocated so far.  A movie is
    linked into [headMovies] only when the next header (or the end of the
    file) is reached, but actors point to it from the moment it exists. *)
Record store := Store {
  headActors : list actorNode;
  movieHeap  : list movieNode;
  headMovies : list nat
}.

(** ** Lines *)

Definition colon : ascii := ":"%char.
Definition newline : ascii := "010"%char.

(** [containsMovie]: scan up to the terminator for a ':' *)
Fixpoint containsMovie (line : string) : bool :=
  match line with
  | EmptyString => false
  | String c rest => if Ascii.eqb c colon then true else containsMovie rest
  end.

(** [findMovie]: advance to the first ':', step two characters further and
    duplicate what is there.  [None] stands for a read outside the buffer:
    the scan running over the terminator (no ':' in the line), or the
    pointer [movie + 2] landing behind the terminator (nothing after the
    ':'). *)
Fixpoint findMovie (line : string) : option string :=
  match line with
  | EmptyString => None
  | String c rest =>
      if Ascii.eqb c colon then
        match rest with
        | EmptyString => None
        | String _ title => Some title
        end
      else findMovie rest
  end.

(** [isspace] in the C locale. *)
Definition isspace (c : ascii) : bool :=
  let n := nat_of_ascii c in
  (Nat.eqb n 32 || (Nat.leb 9 n && Nat.leb n 13))%bool.

(** The last character of a non-empty string, and the string without it. *)
Fixpoint lastChar (c : ascii) (s : string) : ascii :=
  match s with
  | EmptyString => c
  | String d rest => lastChar d rest
  end.

Fixpoint dropLast (c : ascii) (s : string) : string :=
  match s with
  | EmptyString => EmptyString
  | String d rest => String c (dropLast d rest)
  end.

(** [if (line[strlen(line) - 1] == '\n') line[strlen(line) - 1] = '\0';]
    on a line of length at least one. *)
Definition chomp (c : ascii) (s : string) : string :=
  if Ascii.eqb (lastChar c s) newline then dropLast c s else String c s.

(** ** Graph store *)

Definition nameOf (acts : list actorNode) (a : nat) : string :=
  match acts !! a with
  | Some x => actorName x
  | None => EmptyString
  end.

Definition moviesOf (acts : list actorNode) (a : nat) : list nat :=
  match acts !! a with
  | Some x => movies x
  | None => []
  end.

Definition castOf (heap : list movieNode) (m : nat) : list nat :=
  match heap !! m with
  | Some x => actors x
  | None => []
  end.

(** [findActor]: first node of [headActors] with that name. *)
Fixpoint findActor (acts : list actorNode) (name : string) : option nat :=
  match acts with
  | [] => None
  | x :: rest =>
      if String.eqb (actorName x) name then Some O
      else S <$> findActor rest name
  end.

(** [isInLL]: the same walk, answering 1 or 0. *)
Fixpoint isInLL (acts : list actorNode) (name : string) : bool :=
  match acts with
  | [] => false
  | x :: rest => if String.eqb (actorName x) name then true else isInLL rest name
  end.

(** [addActorNode]: append at the tail of [headActors]. *)
Definition addActorNode (acts : list actorNode) (node : actorNode) : list actorNode :=
  acts ++ [node].

(** [addMovieToLL]: append at the tail of [headMovies]. *)
Definition addMovieToLL (hm : list nat) (m : nat) : list nat := hm ++ [m].

Definition pushMovie (m : nat) (x : actorNode) : actorNode :=
  ActorNode (actorName x) (movies x ++ [m]) (visited x) (level x).

(** [addMovieToActorsMovies]: append the movie at the tail of the actor's
    list; the list is not searched. *)
Definition addMovieToActorsMovies (acts : list actorNode) (actor movie : nat)
  : list actorNode :=
  alter (pushMovie movie) actor acts.

(** The walk of [addActorToMovie] over a non-empty cast: the name is compared
    at every node that has a successor; the walk stops at the node without
    successor, which is not compared, and links the new node there. *)
Fixpoint castWalk (acts : list actorNode) (cur : nat) (rest : list nat) (actor : nat)
  : list nat :=
  match rest with
  | [] => [cur; actor]
  | nxt :: rest' =>
      if String.eqb (nameOf acts cur) (nameOf acts actor) then cur :: rest
      else cur :: castWalk acts nxt rest' actor
  end.

Definition castAdd (acts : list actorNode) (cast : list nat) (actor : nat) : list nat :=
  match cast with
  | [] => [actor]
  | cur :: rest => castWalk acts cur rest actor
  end.

Definition setCast (cast : list nat) (x : movieNode) : movieNode :=
  MovieNode (movieName x) cast.

(** [addActorToMovie] *)
Definition addActorToMovie (acts : list actorNode) (heap : list movieNode)
    (movie actor : nat) : list movieNode :=
  alter (fun x => setCast (castAdd acts (actors x) actor) x) movie heap.

(** ** Record parser *)

(** The locals of [parseFile] that survive an iteration: the store and the
    pointer [movie] ([None] is NULL; [movieTitle] is NULL exactly when
    [movie] is). *)
Record pstate := PState {
  pstore : store;
  pmovie : option nat
}.

(** The body of the [else] branch: an actor line, already chomped.  With
    [movie == NULL] the call [addActorToMovie(NULL, actor)] dereferences
    the null pointer: [None]. *)
Definition actorLine (ps : pstate) (name : string) : option pstate :=
  let st := pstore ps in
  match pmovie ps with
  | None => None
  | Some movie =>
      if isInLL (headActors st) name then
        match findActor (headActors st) name with
        | None => None
        | Some actor =>
            let acts := addMovieToActorsMovies (headActors st) actor movie in
            let heap := addActorToMovie acts (movieHeap st) movie actor in
            Some (PState (Store acts heap (headMovies st)) (Some movie))
        end
      else
        let actor := length (headActors st) in
        let acts := addActorNode (headActors st) (ActorNode name [] false 0) in
        let acts := addMovieToActorsMovies acts actor movie in
        let heap := addActorToMovie acts (movieHeap st) movie actor in
        Some (PState (Store acts heap (headMovies st)) (Some movie))
  end.

(** The body of the [if (containsMovie(line))] branch. *)
Definition movieLine (ps : pstate) (line : string) : option pstate :=
  let st := pstore ps in
  let hm := match pmovie ps with
            | Some prev => addMovieToLL (headMovies st) prev
            | None => headMovies st
            end in
  match findMovie line with
  | None => None
  | Some title =>
      let movie := length (movieHeap st) in
      Some (PState (Store (headActors st) (movieHeap st ++ [MovieNode title []]) hm)
                   (Some movie))
  end.

(** One iteration of the [getline] loop on the raw line (terminator
    included, as [getline] returns it).  [getline] never yields an empty
    line inside the loop; on one, [line[strlen(line) - 1]] would be read
    outside the buffer. *)
Definition parseLine (ps : pstate) (raw : string) : option pstate :=
  match raw with
  | EmptyString => None
  | String c rest =>
      if isspace c then Some ps
      else
        let line := chomp c rest in
        if containsMovie line then movieLine ps line else actorLine ps line
  end.

Fixpoint parseLines (ps : pstate) (lines : list string) : option pstate :=
  match lines with
  | [] => Some ps
  | raw :: rest =>
      match parseLine ps raw with
      | None => None
      | Some ps' => parseLines ps' rest
      end
  end.

Definition emptyStore : store := Store [] [] [].

(** [parseFile] on the lines of the file, from the empty globals. *)
Definition parseFile (lines : list string) : option store :=
  match parseLines (PState emptyStore None) lines with
  | None => None
  | Some ps =>
      let st := pstore ps in
      match pmovie ps with
      | Some movie =>
          Some (Store (headActors st) (movieHeap st) (addMovieToLL (headMovies st) movie))
      | None => Some st
      end
  end.

(** ** Path search engine *)

Definition isVisited (acts : list actorNode) (c : nat) : bool :=
  match acts !! c with
  | Some x => visited x
  | None => false
  end.

Definition levelOf (acts : list actorNode) (c : nat) : Z :=
  match acts !! c with
  | Some x => level x
  | None => 0
  end.

Definition setSearch (v : bool) (l : Z) (x : actorNode) : actorNode :=
  ActorNode (actorName x) (movies x) v l.

(** [c->visited = 1; c->level = l;] *)
Definition mark (acts : list actorNode) (c : nat) (l : Z) : list actorNode :=
  alter (setSearch true l) c acts.

(** The reset loop over [headActors]. *)
Definition clearAll (acts : list actorNode) : list actorNode :=
  setSearch false (-1) <$> acts.

(** The queue: [enqueue] links at the tail, [dequeue] unlinks the head. *)
Definition enqueue (q : list nat) (a : nat) : list nat := q ++ [a].

Definition dequeue (q : list nat) : option (nat * list nat) :=
  match q with
  | [] => None
  | a :: q' => Some (a, q')
  end.

(** Outcome of the loops nested in the [while (q != NULL)] body: the target
    was reached ([freeQueue(q); return c->level;]), or the loop ran to its
    end. *)
Inductive scan :=
| Found (lvl : Z) (acts : list actorNode) (q : list nat)
| Cont (acts : list actorNode) (q : list nat).

(** [while (co != NULL)]: the cast of one movie of [a]. *)
Fixpoint scanCast (a target : nat) (co : list nat)
    (acts : list actorNode) (q : list nat) : scan :=
  match co with
  | [] => Cont acts q
  | c :: co' =>
      if isVisited acts c then scanCast a target co' acts q
      else
        let acts' := mark acts c (levelOf acts a + 1)%Z in
        if Nat.eqb c target then Found (levelOf acts' c) acts' q
        else scanCast a target co' acts' (enqueue q c)
  end.

(** [while (ml != NULL)]: the movies of [a]. *)
Fixpoint scanMovies (heap : list movieNode) (a target : nat) (ml : list nat)
    (acts : list actorNode) (q : list nat) : scan :=
  match ml with
  | [] => Cont acts q
  | m :: ml' =>
      match scanCast a target (castOf heap m) acts q with
      | Found l acts' qf => Found l acts' qf
      | Cont acts' q' => scanMovies heap a target ml' acts' q'
      end
  end.

(** [while (q != NULL)], at most [fuel] iterations; [None] when they do not
    suffice.  The result is the returned value, the actors as the search
    leaves them and, as a ghost, the actors that went through the queue in
    the order in which [enqueue] received them: the ones [dequeue] handed
    out, then the ones [freeQueue] found left. *)
Fixpoint bfsLoop (fuel : nat) (heap : list movieNode) (target : nat)
    (acts : list actorNode) (q : list nat)
  : option (Z * list actorNode * list nat) :=
  match dequeue q with
  | None => Some ((-1)%Z, acts, [])
  | Some (a, q') =>
      match fuel with
      | O => None
      | S fuel' =>
          match scanMovies heap a target (moviesOf acts a) acts q' with
          | Found l acts' qf => Some (l, acts', a :: qf)
          | Cont acts' q'' =>
              match bfsLoop fuel' heap target acts' q'' with
              | None => None
              | Some (r, acts'', enq) => Some (r, acts'', a :: enq)
              end
          end
      end
  end.

(** [BFS(start, target)] with a bound on the iterations of its loop: the
    returned value, the store afterwards, and the ghost of [bfsLoop]. *)
Definition BFSfuel (fuel : nat) (st : store) (start target : nat)
  : option (Z * store * list nat) :=
  if Nat.eqb start target then Some (0%Z, st, [])
  else
    let acts := mark (clearAll (headActors st)) start 0 in
    match bfsLoop fuel (movieHeap st) target acts (enqueue [] start) with
    | None => None
    | Some (r, acts', enq) =>
        Some (r, Store acts' (movieHeap st) (headMovies st), enq)
    end.

(** [BFS(start, target)]: one iteration per actor is all the loop can use
    (lemma [BFS_fuel_enough] below). *)
Definition BFS (st : store) (start target : nat) : option (Z * store) :=
  fst <$> BFSfuel (length (headActors st)) st start target.

(** ** Query driver *)

Definition nl : string := String newline EmptyString.

(** What a query does that can be observed: text on the two streams, and
    the calls of [BFS] it makes. *)
Inductive event :=
| Stdout (s : string)
| Stderr (s : string)
| CallBFS (start target : nat).

Definition noBacon : string := "Score: No Bacon!" ++ nl.
Definition notFound : string := "Actor Could Not be Found." ++ nl.

(** [printf("Score: %d\n", bfs)] *)
Definition score (bfs : Z) : string := "Score: " ++ pretty bfs ++ nl.

(** One iteration of the [getline(..., stdin)] loop of [main]: the events,
    the store afterwards, and whether [errSeen] was set. *)
Definition queryLine (st : store) (raw : string)
  : option (list event * store * bool) :=
  match raw with
  | EmptyString => None
  | String c rest =>
      let actorName := chomp c rest in
      match findActor (headActors st) actorName with
      | None => Some ([Stderr notFound], st, true)
      | Some actor =>
          match findActor (headActors st) "Kevin Bacon" with
          | None => Some ([Stdout noBacon], st, false)
          | Some bacon =>
              match BFS st bacon actor with
              | None => None
              | Some (bfs, st') =>
                  Some ([CallBFS bacon actor;
                         Stdout (if Z.eqb bfs (-1) then noBacon else score bfs)],
                        st', false)
              end
          end
      end
  end.

Fixpoint queryLoop (st : store) (errSeen : bool) (lines : list string)
  : option (list event * bool) :=
  match lines with
  | [] => Some ([], errSeen)
  | raw :: rest =>
      match queryLine st raw with
      | None => None
      | Some (evs, st', err) =>
          match queryLoop st' (err || errSeen) rest with
          | None => None
          | Some (evs', errSeen') => Some ((evs ++ evs')%list, errSeen')
          end
      end
  end.

(** [main] once the file is open: the dataset, then the queries; the events
    and the exit status. *)
Definition run (dataset queries : list string) : option (list event * Z) :=
  match parseFile dataset with
  | None => None
  | Some st =>
      match queryLoop st false queries with
      | None => None
      | Some (evs, errSeen) => Some (evs, if errSeen then 1%Z else 0%Z)
      end
  end.

(** ** Command line *)

(** How the argument loop of [main] ends: with a message on the standard
    error and [return 1], or at its end with the path [fopen] was called
    on ([None]: [file] was never assigned, [fileNotInit] is still 0) and
    the value of [minusOption]. *)
Inductive argsResult :=
| ArgsError (msg : string)
| ArgsOk (file : option string) (minusOption : Z).

(** [for (int index = 1; index < argc; index++)] over [argv[index]], with
    the locals [file] (the path it was opened from), [minusOption] and
    [mult]. *)
Fixpoint argLoop (argv : list string) (file : option string)
    (minusOption mult : Z) : argsResult :=
  match argv with
  | [] => ArgsOk file minusOption
  | arg :: rest =>
      if String.eqb "-l" arg then
        if Z.ltb 1 (mult + 1) then ArgsError ("Too many optional Arguments." ++ nl)
        else argLoop rest file 1 (mult + 1)
      else
        match file with
        | None => argLoop rest (Some arg) minusOption mult
        | Some _ => ArgsError ("Too many Files were given." ++ nl)
        end
  end.

(** [main]: [argv] with the program name first, the files that can be
    opened for reading as [fs] (the lines [getline] yields from each of
    them) and the lines of the standard input.  Without a file argument
    [file == NULL] tests a pointer that was never assigned: [None]. *)
Definition main (fs : string → option (list string)) (argv stdin : list string)
  : option (list event * Z) :=
  match argLoop (tail argv) None 0 0 with
  | ArgsError msg => Some ([Stderr msg], 1%Z)
  | ArgsOk None _ => None
  | ArgsOk (Some path) _ =>
      match fs path with
      | None => Some ([Stderr ("Could not Open the File." ++ nl)], 1%Z)
      | Some dataset => run dataset stdin
      end
  end.

(** ** Debug print *)

Definition movieNameOf (heap : list movieNode) (m : nat) : string :=
  match heap !! m with
  | Some x => movieName x
  | None => EmptyString
  end.

Definition tab : string := String "009"%char EmptyString.

(** The body of the outer loop of [printActorsWithMovies]: the line of the
    movie, then one line per node of its cast. *)
Definition printMovie (st : store) (m : nat) : list string :=
  ("MOVIE: " ++ movieNameOf (movieHeap st) m ++ nl)
  :: ((λ c, tab ++ "ACTOR: " ++ nameOf (headActors st) c ++ nl)
        <$> castOf (movieHeap st) m).

(** [printActorsWithMovies]: the lines written to the standard output, over
    [headMovies]. *)
Definition printActorsWithMovies (st : store) : list string :=
  headMovies st ≫= printMovie st.

(** ** Notions the properties are stated with *)

Local Close Scope string_scope.

(** The edge the search follows from [a]: some movie of [a] has [c] in its
    cast. *)
Definition costar (acts : list actorNode) (heap : list movieNode) (a c : nat) : Prop :=
  ∃ m, m ∈ moviesOf acts a ∧ c ∈ castOf heap m.

(** Two actors of the graph share a movie. *)
Definition sharesMovie (acts : list actorNode) (a c : nat) : Prop :=
  ∃ m, m ∈ moviesOf acts a ∧ m ∈ moviesOf acts c.

(** [path E a k b]: [k] hops along [E] lead from [a] to [b]. *)
Inductive path (E : nat → nat → Prop) (a : nat) : nat → nat → Prop :=
| path_nil : path E a 0 a
| path_snoc k b c : path E a k b → E b c → path E a (S k) c.

(** [k] is the length of a shortest path from [a] to [b]. *)
Definition shortest (E : nat → nat → Prop) (a b : nat) (k : nat) : Prop :=
  path E a k b ∧ ∀ j, path E a j b → k ≤ j.

(** No two actors of the store carry the same name. *)
Definition uniqueNames (acts : list actorNode) : Prop :=
  NoDup (actorName <$> acts).

(** Two lists of actors that differ in the search fields only. *)
Definition sameGraph (acts acts' : list actorNode) : Prop :=
  movies <$> acts = movies <$> acts' ∧ actorName <$> acts = actorName <$> acts'.

(** The levels along a queue grow, starting at [lo] or above. *)
Fixpoint sortedFrom (acts : list actorNode) (lo : Z) (q : list nat) : Prop :=
  match q with
  | [] => True
  | x :: q' => (lo ≤ levelOf acts x)%Z ∧ sortedFrom acts (levelOf acts x) q'
  end.

(** What a query line is answered with when no actor is named
    "Kevin Bacon": the score line for a name of the store, the complaint on
    the standard error for any other. *)
Definition unanchoredAnswer (acts : list actorNode) (raw : string) : event :=
  match raw with
  | EmptyString => Stderr notFound
  | String c rest =>
      match findActor acts (chomp c rest) with
      | Some _ => Stdout noBacon
      | None => Stderr notFound
      end
  end.

(** The actors and the queue a scan ends with, on either exit. *)
Definition scanActs (r : scan) : list actorNode :=
  match r with
  | Found _ acts _ => acts
  | Cont acts _ => acts
  end.

Definition scanQueue (r : scan) : list nat :=
  match r with
  | Found _ _ q => q
  | Cont _ q => q
  end.

(** The number of actors whose [visited] flag is 0. *)
Fixpoint unvisitedCount (acts : list actorNode) : nat :=
  match acts with
  | [] => 0
  | x :: rest => (if visited x then 0 else 1) + unvisitedCount rest
  end.

(** *** The invariant of the search *)

Section SearchInvariant.

Variable heap : list movieNode.
Variable acts0 : list actorNode.
Variables start target : nat.

(** [Inv acts L p]: the search fields [acts], while the actors [p] wait to
    be expanded (the one being expanded first), [L] being the level of the
    first of them. *)
Record Inv (acts : list actorNode) (L : Z) (p : list nat) : Prop := {
  inv_graph : movies <$> acts = movies <$> acts0;
  inv_start : isVisited acts start = true ∧ levelOf acts start = 0%Z;
  inv_target : isVisited acts target = false;
  inv_pending : ∀ x, x ∈ p → isVisited acts x = true;
  inv_sorted : sortedFrom acts L p;
  inv_le : ∀ v, isVisited acts v = true → (levelOf acts v ≤ L + 1)%Z;
  inv_path : ∀ v, isVisited acts v = true →
             ∃ k : nat, levelOf acts v = Z.of_nat k ∧
                        path (costar acts0 heap) start k v;
  inv_closed : ∀ v w, isVisited acts v = true → v ∉ p →
               costar acts0 heap v w → isVisited acts w = true;
  inv_mono : ∀ v w, isVisited acts v = true → isVisited acts w = true →
             costar acts0 heap v w →
             (levelOf acts w ≤ levelOf acts v + 1)%Z
}.

(** What the search returns. *)
Definition Post (r : Z) : Prop :=
  (r = (-1)%Z ∧ ∀ k, ¬ path (costar acts0 heap) start k target) ∨
  (∃ k : nat, r = Z.of_nat k ∧ shortest (costar acts0 heap) start target k).

(** What one sweep over a cast leaves behind. *)
Definition scanPost (acts : list actorNode) (q : list nat) (a : nat) (L : Z)
    (seen : list nat) (r : scan) : Prop :=
  match r with
  | Found l acts' qf => Post l
  | Cont acts' q' =>
      Inv acts' L (a :: q') ∧ levelOf acts' a = L ∧
      (∀ c, c ∈ seen → isVisited acts' c = true) ∧
      (∀ x, isVisited acts x = true → isVisited acts' x = true) ∧
      unvisitedCount acts' + length q' = unvisitedCount acts + length q
  end.

End SearchInvariant.

(** How the loop of a search ends: with an empty queue, or at the moment
    the target is marked, one level below the actor [a] being expanded. *)
Definition searchEnd (heap : list movieNode) (acts0 : list actorNode)
    (start target : nat) (r : Z) (acts' : list actorNode) : Prop :=
  (r = (-1)%Z ∧ ∃ L, Inv heap acts0 start target acts' L []) ∨
  (∃ acts1 L a q,
     Inv heap acts0 start target acts1 L (a :: q) ∧ levelOf acts1 a = L ∧
     costar acts0 heap a target ∧ isVisited acts1 target = false ∧
     acts' = mark acts1 target (L + 1) ∧ r = (L + 1)%Z).

(** Every actor whose flag is 0 has the level of the reset. *)
Definition restLevel (acts : list actorNode) : Prop :=
  ∀ v x, acts !! v = Some x → visited x = false → level x = (-1)%Z.

(** *** The invariant of the parser *)

(** What every iteration of the parser keeps true of the actors and the
    movies. *)
Record graphInv (acts : list actorNode) (heap : list movieNode) : Prop := {
  gi_names : uniqueNames acts;
  gi_movies : ∀ a m, m ∈ moviesOf acts a → m < length heap;
  gi_casts : ∀ m c, c ∈ castOf heap m → c < length acts;
  gi_linked : ∀ a m, m ∈ moviesOf acts a ↔ a ∈ castOf heap m
}.

(** The invariant of the [getline] loop of [parseFile]. *)
Definition parseInv (ps : pstate) : Prop :=
  graphInv (headActors (pstore ps)) (movieHeap (pstore ps)) ∧
  ∀ movie, pmovie ps = Some movie → movie < length (movieHeap (pstore ps)).

(** *** What goes through the queue, and what a call answers *)

(** What a scan appends to the queue: actors whose flag was 0 before the
    scan and is 1 after it, each of them once. *)
Definition pushedOnce (acts : list actorNode) (q : list nat) (r : scan) : Prop :=
  (∀ x, isVisited acts x = true → isVisited (scanActs r) x = true) ∧
  ∃ new, scanQueue r = q ++ new ∧ NoDup new ∧
         ∀ c, c ∈ new → isVisited acts c = false ∧ isVisited (scanActs r) c = true.

(** What a call returns on a well-formed undirected graph. *)
Definition answer (acts : list actorNode) (a b : nat) (r : Z) : Prop :=
  (r = (-1)%Z ∧ ∀ k, ¬ path (sharesMovie acts) a k b) ∨
  (∃ d : nat, r = Z.of_nat d ∧ shortest (sharesMovie acts) a b d).

(** *** How the parser reads a line *)

(** The line is skipped: it starts with white space. *)
Definition blankLine (raw : string) : bool :=
  match raw with
  | EmptyString => false
  | String c _ => isspace c
  end.

(** The title of the line when it is a movie header. *)
Definition lineTitle (raw : string) : option string :=
  match raw with
  | EmptyString => None
  | String c rest =>
      if isspace c then None
      else if containsMovie (chomp c rest) then findMovie (chomp c rest)
      else None
  end.

(** The name on the line when it is an actor line. *)
Definition lineName (raw : string) : option string :=
  match raw with
  | EmptyString => None
  | String c rest =>
      if isspace c then None
      else if containsMovie (chomp c rest) then None
      else Some (chomp c rest)
  end.

(** The names of a list in the order of their first occurrence, those of
    [seen] left out. *)
Fixpoint firstSeen (seen names : list string) : list string :=
  match names with
  | [] => []
  | n :: rest =>
      if bool_decide (n ∈ seen) then firstSeen seen rest
      else n :: firstSeen (seen ++ [n]) rest
  end.

(** *** The dataset as the parser reads it *)

(** The names listed under each movie header met so far, header after
    header: a header opens an empty list, an actor line adds its name to
    the list opened last. *)
Definition sectionStep (acc : list (list string)) (raw : string)
  : list (list string) :=
  match lineTitle raw with
  | Some _ => acc ++ [[]]
  | None =>
      match lineName raw with
      | Some n => alter (λ names, names ++ [n]) (length acc - 1) acc
      | None => acc
      end
  end.

Definition sections (lines : list string) : list (list string) :=
  foldl sectionStep [] lines.

(** How the state of the parser and the lists of names met so far go
    together. *)
Record sectionInv (ps : pstate) (acc : list (list string)) : Prop := {
  si_len : length (movieHeap (pstore ps)) = length acc;
  si_cur : pmovie ps = match acc with
                       | [] => None
                       | _ :: _ => Some (length acc - 1)
                       end;
  si_known : ∀ m names n, acc !! m = Some names → n ∈ names →
             n ∈ actorName <$> headActors (pstore ps);
  si_cast : ∀ m a, a ∈ castOf (movieHeap (pstore ps)) m ↔
                   a < length (headActors (pstore ps)) ∧
                   ∃ names, acc !! m = Some names ∧
                            nameOf (headActors (pstore ps)) a ∈ names
}.

(** *** A query on its own *)

(** What a query writes, and whether it sets [errSeen], when it is the
    only query asked of the store. *)
Definition queryEvents (st : store) (raw : string) : list event :=
  match queryLine st raw with
  | Some (evs, _, _) => evs
  | None => []
  end.

Definition queryFails (st : store) (raw : string) : bool :=
  match queryLine st raw with
  | Some (_, _, err) => err
  | None => false
  end.

(** ** Datasets *)

Section Datasets.
Local Open Scope string_scope.

(** The scenario of the specification. *)
Definition scenario : list string :=
  ["Movie: A Beautiful Mind" ++ nl; "Russell Crowe" ++ nl; "Ed Harris" ++ nl;
   nl; "Movie: X-Men" ++ nl; "Kevin Bacon" ++ nl; "Ed Harris" ++ nl].

(** Two movies without a common actor. *)
Definition islands : list string :=
  ["Movie: X" ++ nl; "Kevin Bacon" ++ nl; "Movie: Y" ++ nl; "Tom Hanks" ++ nl].

Definition islandsStore : store :=
  Store [ActorNode "Kevin Bacon" [0] false 0; ActorNode "Tom Hanks" [1] false 0]
        [MovieNode "X" [0]; MovieNode "Y" [1]]
        [0; 1].

(** One movie, the same name twice in a row. *)
Definition twice : list string := ["Movie: X" ++ nl; "A" ++ nl; "A" ++ nl].

Definition twiceStore : store :=
  Store [ActorNode "A" [0; 0] false 0] [MovieNode "X" [0; 0]] [0].

(** The scenario of the specification, parsed. *)
Definition scenarioStore : store :=
  Store [ActorNode "Russell Crowe" [0] false 0;
         ActorNode "Ed Harris" [0; 1] false 0;
         ActorNode "Kevin Bacon" [1] false 0]
        [MovieNode "A Beautiful Mind" [0; 1]; MovieNode "X-Men" [2; 1]]
        [0; 1].

(** Two actors that are different nodes with one name (no dataset yields
    this store; [BFS] accepts it all the same). *)
Definition twins : store :=
  Store [ActorNode "A" [0] true 7; ActorNode "A" [0] false 0]
        [MovieNode "X" [0; 1]] [0].

(** A dataset without the anchor. *)
Definition strangers : list string := ["Movie: X" ++ nl; "A" ++ nl].

Definition strangersStore : store :=
  Store [ActorNode "A" [0] false 0] [MovieNode "X" [0]] [0].

End Datasets.

(** * Properties *)

(** ** The scenario of the specification *)

Section Scenario.
Local Open Scope string_scope.

Example parse_scenario : parseFile scenario = Some scenarioStore.
Proof. vm_compute. reflexivity. Qed.

Example run_scenario :
  run scenario ["Russell Crowe" ++ nl; "Kevin Bacon" ++ nl; "Tom Hanks" ++ nl]
  = Some ([CallBFS 2 0; Stdout ("Score: 2" ++ nl);
           CallBFS 2 2; Stdout ("Score: 0" ++ nl);
           Stderr notFound], 1%Z).
Proof. vm_compute. reflexivity. Qed.

End Scenario.

(** ** Search fields *)

Lemma mark_length acts c l : length (mark acts c l) = length acts.
Proof. apply length_alter. Qed.

Lemma mark_movies acts c l : movies <$> mark acts c l = movies <$> acts.
Proof.
  apply list_eq; intros i. unfold mark. rewrite !list_lookup_fmap.
  destruct (decide (c = i)) as [->|Hne].
  - rewrite list_lookup_alter_eq. by destruct (acts !! i).
  - by rewrite list_lookup_alter_ne.
Qed.

Lemma mark_names acts c l : actorName <$> mark acts c l = actorName <$> acts.
Proof.
  apply list_eq; intros i. unfold mark. rewrite !list_lookup_fmap.
  destruct (decide (c = i)) as [->|Hne].
  - rewrite list_lookup_alter_eq. by destruct (acts !! i).
  - by rewrite list_lookup_alter_ne.
Qed.

Lemma clearAll_movies acts : movies <$> clearAll acts = movies <$> acts.
Proof. unfold clearAll. rewrite <- list_fmap_compose. by apply list_fmap_ext. Qed.

Lemma clearAll_names acts : actorName <$> clearAll acts = actorName <$> acts.
Proof. unfold clearAll. rewrite <- list_fmap_compose. by apply list_fmap_ext. Qed.

Lemma moviesOf_fmap acts acts' a :
  movies <$> acts = movies <$> acts' → moviesOf acts a = moviesOf acts' a.
Proof.
  intros H. assert (Hi : (movies <$> acts) !! a = (movies <$> acts') !! a) by by rewrite H.
  rewrite !list_lookup_fmap in Hi. unfold moviesOf.
  destruct (acts !! a), (acts' !! a); simpl in Hi; congruence.
Qed.

Lemma fmap_length_eq {B} (f : actorNode → B) acts acts' :
  f <$> acts = f <$> acts' → length acts = length acts'.
Proof. intros H. by rewrite <- (length_fmap f acts), H, length_fmap. Qed.

Lemma isVisited_mark_eq acts c l :
  c < length acts → isVisited (mark acts c l) c = true.
Proof.
  intros Hc. unfold isVisited, mark. rewrite list_lookup_alter_eq.
  destruct (lookup_lt_is_Some_2 acts c Hc) as [x ->]. done.
Qed.

Lemma isVisited_mark_ne acts c l x :
  x ≠ c → isVisited (mark acts c l) x = isVisited acts x.
Proof. intros Hne. unfold isVisited, mark. by rewrite list_lookup_alter_ne. Qed.

Lemma levelOf_mark_eq acts c l :
  c < length acts → levelOf (mark acts c l) c = l.
Proof.
  intros Hc. unfold levelOf, mark. rewrite list_lookup_alter_eq.
  destruct (lookup_lt_is_Some_2 acts c Hc) as [x ->]. done.
Qed.

Lemma levelOf_mark_ne acts c l x :
  x ≠ c → levelOf (mark acts c l) x = levelOf acts x.
Proof. intros Hne. unfold levelOf, mark. by rewrite list_lookup_alter_ne. Qed.

Lemma isVisited_mark_mono acts c l x :
  isVisited acts x = true → isVisited (mark acts c l) x = true.
Proof.
  intros Hx. destruct (decide (x = c)) as [->|Hne].
  - apply isVisited_mark_eq. unfold isVisited in Hx.
    destruct (acts !! c) eqn:E; [by eapply lookup_lt_Some | done].
  - by rewrite isVisited_mark_ne.
Qed.

Lemma isVisited_clearAll acts x : isVisited (clearAll acts) x = false.
Proof.
  unfold isVisited, clearAll. rewrite list_lookup_fmap. by destruct (acts !! x).
Qed.

Lemma unvisitedCount_mark acts c l :
  c < length acts → isVisited acts c = false →
  S (unvisitedCount (mark acts c l)) = unvisitedCount acts.
Proof.
  revert c. induction acts as [|x acts IH]; intros c Hc Hv; simpl in *; [lia|].
  destruct c as [|c].
  - unfold isVisited in Hv. simpl in Hv. rewrite Hv. done.
  - unfold isVisited in Hv. simpl in Hv.
    change (alter (setSearch true l) (S c) (x :: acts))
      with (x :: mark acts c l). simpl.
    rewrite <- (IH c); [lia | lia | done].
Qed.

Lemma unvisitedCount_clearAll acts : unvisitedCount (clearAll acts) = length acts.
Proof. induction acts as [|x acts IH]; simpl; [done | by rewrite IH]. Qed.

Lemma sortedFrom_ge acts lo q x :
  sortedFrom acts lo q → x ∈ q → (lo ≤ levelOf acts x)%Z.
Proof.
  revert lo. induction q as [|y q IH]; intros lo Hs Hx; [by apply elem_of_nil in Hx|].
  destruct Hs as [Hy Hs]. apply elem_of_cons in Hx as [->|Hx]; [done|].
  specialize (IH _ Hs Hx). lia.
Qed.

Lemma sortedFrom_ext acts acts' lo q :
  (∀ x, x ∈ q → levelOf acts' x = levelOf acts x) →
  sortedFrom acts lo q → sortedFrom acts' lo q.
Proof.
  revert lo. induction q as [|y q IH]; intros lo Hext Hs; [done|].
  destruct Hs as [Hy Hs]. simpl. rewrite Hext by apply list_elem_of_here.
  split; [done|]. apply IH; [|done]. intros x Hx. apply Hext. by apply list_elem_of_further.
Qed.

Lemma sortedFrom_snoc acts lo q c :
  sortedFrom acts lo q → (lo ≤ levelOf acts c)%Z →
  (∀ x, x ∈ q → (levelOf acts x ≤ levelOf acts c)%Z) →
  sortedFrom acts lo (q ++ [c]).
Proof.
  revert lo. induction q as [|y q IH]; intros lo Hs Hlo Hle; simpl; [done|].
  destruct Hs as [Hy Hs]. split; [done|]. apply IH; [done| |].
  - apply Hle, list_elem_of_here.
  - intros x Hx. apply Hle. by apply list_elem_of_further.
Qed.

(** ** The invariant of the search *)

Section Search.

Variable heap : list movieNode.
Variable acts0 : list actorNode.
Variables start target : nat.

Let E := costar acts0 heap.

Hypothesis castsValid : ∀ a c, E a c → c < length acts0.

Local Abbreviation Inv := (Inv heap acts0 start target).
Local Abbreviation Post := (Post heap acts0 start target).
Local Abbreviation scanPost := (scanPost heap acts0 start target).

Lemma Inv_length acts L p : Inv acts L p → length acts = length acts0.
Proof. intros H. eapply fmap_length_eq, inv_graph, H. Qed.

(** No path is shorter than the level found, and none shorter than [L + 1]
    leads to an actor not yet seen. *)
Lemma Inv_lower_bound acts L p k w :
  Inv acts L p → path E start k w →
  (isVisited acts w = true → (levelOf acts w ≤ Z.of_nat k)%Z) ∧
  (isVisited acts w = false → (L + 1 ≤ Z.of_nat k)%Z).
Proof.
  intros HI Hp. induction Hp as [|k b c Hp [IHv IHu] Hbc].
  - destruct (inv_start _ _ _ _ _ _ _ HI) as [Hv Hl]. split; [lia | congruence].
  - destruct (isVisited acts b) eqn:Hb.
    + specialize (IHv eq_refl). split; intros Hc.
      * pose proof (inv_mono _ _ _ _ _ _ _ HI b c Hb Hc Hbc). lia.
      * destruct (decide (b ∈ p)) as [Hin|Hnin].
        -- pose proof (sortedFrom_ge _ _ _ _ (inv_sorted _ _ _ _ _ _ _ HI) Hin). lia.
        -- pose proof (inv_closed _ _ _ _ _ _ _ HI b c Hb Hnin Hbc). congruence.
    + specialize (IHu eq_refl). split; intros Hc.
      * pose proof (inv_le _ _ _ _ _ _ _ HI c Hc). lia.
      * lia.
Qed.

(** With nobody waiting, everything that can be reached has been seen. *)
Lemma Inv_closed_all acts L k w :
  Inv acts L [] → path E start k w → isVisited acts w = true.
Proof.
  intros HI Hp. induction Hp as [|k b c Hp IH Hbc].
  - apply (inv_start _ _ _ _ _ _ _ HI).
  - eapply (inv_closed _ _ _ _ _ _ _ HI b c); [done | apply not_elem_of_nil | done].
Qed.

(** Marking an actor seen for the first time and queueing it. *)
Lemma Inv_enqueue acts L a q c :
  Inv acts L (a :: q) → levelOf acts a = L → E a c →
  isVisited acts c = false → c ≠ target →
  Inv (mark acts c (L + 1)) L (a :: enqueue q c).
Proof.
  intros HI Ha Hac Hc Hct.
  assert (Hlen : c < length acts).
  { rewrite (Inv_length _ _ _ HI). by eapply castsValid. }
  assert (Hold : ∀ x, isVisited acts x = true → x ≠ c) by (intros x Hx ->; congruence).
  assert (Hvis : ∀ x, isVisited (mark acts c (L + 1)) x = true →
                      x = c ∨ (x ≠ c ∧ isVisited acts x = true)).
  { intros x Hx. destruct (decide (x = c)) as [->|Hne]; [by left|].
    right. by rewrite isVisited_mark_ne in Hx. }
  assert (Hav : isVisited acts a = true).
  { apply (inv_pending _ _ _ _ _ _ _ HI), list_elem_of_here. }
  split.
  - rewrite mark_movies. apply (inv_graph _ _ _ _ _ _ _ HI).
  - destruct (inv_start _ _ _ _ _ _ _ HI) as [Hv Hl]. pose proof (Hold _ Hv).
    by rewrite isVisited_mark_ne, levelOf_mark_ne.
  - rewrite isVisited_mark_ne by done. apply (inv_target _ _ _ _ _ _ _ HI).
  - intros x Hx. unfold enqueue in Hx.
    change (a :: q ++ [c]) with ((a :: q) ++ [c]) in Hx.
    apply elem_of_app in Hx as [Hx|Hx].
    + apply isVisited_mark_mono, (inv_pending _ _ _ _ _ _ _ HI), Hx.
    + apply list_elem_of_singleton in Hx as ->. by apply isVisited_mark_eq.
  - unfold enqueue. change (a :: q ++ [c]) with ((a :: q) ++ [c]).
    apply sortedFrom_snoc.
    + eapply sortedFrom_ext; [|apply (inv_sorted _ _ _ _ _ _ _ HI)].
      intros x Hx. apply levelOf_mark_ne, Hold, (inv_pending _ _ _ _ _ _ _ HI), Hx.
    + rewrite levelOf_mark_eq by done. lia.
    + intros x Hx. pose proof (inv_pending _ _ _ _ _ _ _ HI x Hx) as Hxv.
      rewrite levelOf_mark_eq, levelOf_mark_ne by auto.
      apply (inv_le _ _ _ _ _ _ _ HI), Hxv.
  - intros v Hv. apply Hvis in Hv as [->|[Hne Hv]].
    + rewrite levelOf_mark_eq by done. lia.
    + rewrite levelOf_mark_ne by done. apply (inv_le _ _ _ _ _ _ _ HI), Hv.
  - intros v Hv. apply Hvis in Hv as [->|[Hne Hv]].
    + destruct (inv_path _ _ _ _ _ _ _ HI a Hav) as (k & Hk & Hp).
      exists (S k). rewrite levelOf_mark_eq by done. split; [lia|].
      by eapply path_snoc.
    + rewrite levelOf_mark_ne by done. apply (inv_path _ _ _ _ _ _ _ HI), Hv.
  - intros v w Hv Hnin Hvw. apply Hvis in Hv as [->|[Hne Hv]].
    + exfalso. apply Hnin. apply list_elem_of_further, elem_of_app. right.
      apply list_elem_of_here.
    + apply isVisited_mark_mono. apply (inv_closed _ _ _ _ _ _ _ HI v w Hv); [|done].
      intros Hin. apply Hnin. unfold enqueue.
      change (a :: q ++ [c]) with ((a :: q) ++ [c]). apply elem_of_app. by left.
  - intros v w Hv Hw Hvw.
    apply Hvis in Hv as [->|[Hnev Hv]]; apply Hvis in Hw as [->|[Hnew Hw]].
    + lia.
    + rewrite levelOf_mark_eq, levelOf_mark_ne by done.
      pose proof (inv_le _ _ _ _ _ _ _ HI w Hw). lia.
    + rewrite levelOf_mark_eq, levelOf_mark_ne by done.
      destruct (decide (v ∈ a :: q)) as [Hin|Hnin].
      * pose proof (sortedFrom_ge _ _ _ _ (inv_sorted _ _ _ _ _ _ _ HI) Hin). lia.
      * pose proof (inv_closed _ _ _ _ _ _ _ HI v c Hv Hnin Hvw). congruence.
    + rewrite !levelOf_mark_ne by done. by apply (inv_mono _ _ _ _ _ _ _ HI).
Qed.

(** The actor at the head has been expanded: the next one takes over. *)
Lemma Inv_dequeue acts L a q :
  Inv acts L (a :: q) → levelOf acts a = L →
  (∀ w, E a w → isVisited acts w = true) →
  ∃ L', Inv acts L' q ∧
        match q with [] => True | a' :: _ => levelOf acts a' = L' end.
Proof.
  intros HI Ha Hnb.
  assert (Hcl : ∀ v w, isVisited acts v = true → v ∉ q → E v w →
                       isVisited acts w = true).
  { intros v w Hv Hnin Hvw. destruct (decide (v = a)) as [->|Hne]; [by apply Hnb|].
    apply (inv_closed _ _ _ _ _ _ _ HI v w Hv); [|done].
    intros Hin. apply elem_of_cons in Hin as [?|?]; done. }
  destruct (inv_sorted _ _ _ _ _ _ _ HI) as [_ Hs].
  destruct q as [|a' q].
  - exists L. split; [|done]. split; try apply HI; try done.
    intros x Hx. by apply elem_of_nil in Hx.
  - exists (levelOf acts a'). split; [|done].
    destruct Hs as [Hle Hs]. split; try apply HI; try done.
    + intros x Hx. apply (inv_pending _ _ _ _ _ _ _ HI). by apply list_elem_of_further.
    + intros v Hv. pose proof (inv_le _ _ _ _ _ _ _ HI v Hv). lia.
Qed.

Lemma scanCast_inv co : ∀ acts q a L,
  Inv acts L (a :: q) → levelOf acts a = L → (∀ c, c ∈ co → E a c) →
  scanPost acts q a L co (scanCast a target co acts q).
Proof.
  induction co as [|c co IH]; intros acts q a L HI Ha Hco; simpl.
  - split_and!; try done. intros c Hc. by apply elem_of_nil in Hc.
  - assert (Hac : E a c) by apply Hco, list_elem_of_here.
    assert (Hco' : ∀ c', c' ∈ co → E a c').
    { intros c' Hc'. by apply Hco, list_elem_of_further. }
    destruct (isVisited acts c) eqn:Hc.
    + specialize (IH acts q a L HI Ha Hco').
      destruct (scanCast a target co acts q) as [l acts' qf|acts' q']; [done|].
      destruct IH as (HI' & Ha' & Hseen & Hmono & Hcount).
      split_and!; try done.
      intros c' Hc'. apply elem_of_cons in Hc' as [->|Hc']; auto.
    + assert (Hlen : c < length acts).
      { rewrite (Inv_length _ _ _ HI). by eapply castsValid. }
      assert (Hav : isVisited acts a = true).
      { apply (inv_pending _ _ _ _ _ _ _ HI), list_elem_of_here. }
      assert (Hne : a ≠ c) by (intros ->; congruence).
      rewrite Ha. destruct (Nat.eqb_spec c target) as [->|Hct].
      * rewrite levelOf_mark_eq by done. simpl. right.
        destruct (inv_path _ _ _ _ _ _ _ HI a Hav) as (k & Hk & Hp).
        exists (S k). split; [lia|]. split; [by eapply path_snoc|].
        intros j Hj.
        destruct (Inv_lower_bound _ _ _ _ _ HI Hj) as [_ Hlow].
        specialize (Hlow Hc). lia.
      * pose proof (Inv_enqueue _ _ _ _ _ HI Ha Hac Hc Hct) as HI1.
        assert (Ha1 : levelOf (mark acts c (L + 1)) a = L).
        { by rewrite levelOf_mark_ne. }
        specialize (IH _ _ _ _ HI1 Ha1 Hco').
        destruct (scanCast a target co (mark acts c (L + 1)) (enqueue q c))
          as [l acts' qf|acts' q']; [done|].
        destruct IH as (HI' & Ha' & Hseen & Hmono & Hcount).
        split_and!; try done.
        -- intros c' Hc'. apply elem_of_cons in Hc' as [->|Hc']; auto.
           by apply Hmono, isVisited_mark_eq.
        -- intros x Hx. by apply Hmono, isVisited_mark_mono.
        -- rewrite Hcount. unfold enqueue. rewrite length_app. simpl.
           pose proof (unvisitedCount_mark acts c (L + 1) Hlen Hc). lia.
Qed.

Lemma scanMovies_inv ml : ∀ acts q a L,
  Inv acts L (a :: q) → levelOf acts a = L → (∀ m, m ∈ ml → m ∈ moviesOf acts0 a) →
  scanPost acts q a L (ml ≫= castOf heap) (scanMovies heap a target ml acts q).
Proof.
  induction ml as [|m ml IH]; intros acts q a L HI Ha Hml; simpl.
  - split_and!; try done. intros c Hc. by apply elem_of_nil in Hc.
  - assert (Hm : ∀ c, c ∈ castOf heap m → E a c).
    { intros c Hc. exists m. split; [apply Hml, list_elem_of_here | done]. }
    pose proof (scanCast_inv (castOf heap m) acts q a L HI Ha Hm) as H1.
    destruct (scanCast a target (castOf heap m) acts q) as [l acts1 qf|acts1 q1]; [done|].
    destruct H1 as (HI1 & Ha1 & Hseen1 & Hmono1 & Hcount1).
    assert (Hml' : ∀ m', m' ∈ ml → m' ∈ moviesOf acts0 a).
    { intros m' Hm'. by apply Hml, list_elem_of_further. }
    specialize (IH acts1 q1 a L HI1 Ha1 Hml').
    destruct (scanMovies heap a target ml acts1 q1) as [l acts2 qf|acts2 q2]; [done|].
    destruct IH as (HI2 & Ha2 & Hseen2 & Hmono2 & Hcount2).
    split_and!; try done.
    + intros c Hc. apply elem_of_app in Hc as [Hc|Hc]; auto.
    + auto.
    + lia.
Qed.

(** The [while (q != NULL)] loop ends within the fuel that the unvisited
    actors and the queue account for, with the right answer. *)
Lemma bfsLoop_spec fuel : ∀ acts q L,
  Inv acts L q →
  match q with [] => True | a :: _ => levelOf acts a = L end →
  unvisitedCount acts + length q ≤ fuel →
  ∃ r acts' enq, bfsLoop fuel heap target acts q = Some (r, acts', enq) ∧ Post r.
Proof.
  induction fuel as [|fuel IH]; intros acts q L HI Hhead Hfuel.
  - destruct q as [|a q]; simpl in *; [|lia].
    exists (-1)%Z, acts, []. split; [done|]. left. split; [done|].
    intros k Hp. pose proof (Inv_closed_all _ _ _ _ HI Hp) as Hv.
    pose proof (inv_target _ _ _ _ _ _ _ HI). congruence.
  - destruct q as [|a q]; simpl in *.
    + exists (-1)%Z, acts, []. split; [done|]. left. split; [done|].
      intros k Hp. pose proof (Inv_closed_all _ _ _ _ HI Hp) as Hv.
      pose proof (inv_target _ _ _ _ _ _ _ HI). congruence.
    + assert (Hml : ∀ m, m ∈ moviesOf acts a → m ∈ moviesOf acts0 a).
      { intros m. by rewrite (moviesOf_fmap _ _ _ (inv_graph _ _ _ _ _ _ _ HI)). }
      pose proof (scanMovies_inv _ acts q a L HI Hhead Hml) as H1.
      destruct (scanMovies heap a target (moviesOf acts a) acts q)
        as [l acts1 qf|acts1 q1]; [by exists l, acts1, (a :: qf)|].
      destruct H1 as (HI1 & Ha1 & Hseen1 & Hmono1 & Hcount1).
      assert (Hnb : ∀ w, E a w → isVisited acts1 w = true).
      { intros w (m & Hm & Hw). apply Hseen1.
        rewrite (moviesOf_fmap _ _ _ (inv_graph _ _ _ _ _ _ _ HI)).
        apply list_elem_of_bind. eauto. }
      destruct (Inv_dequeue _ _ _ _ HI1 Ha1 Hnb) as (L' & HI' & Hhead').
      destruct (IH acts1 q1 L' HI' Hhead') as (r & acts2 & enq & Hrun & Hpost); [lia|].
      rewrite Hrun. by exists r, acts2, (a :: enq).
Qed.

End Search.

(** ** The search as a whole *)

Lemma path_ext (E E' : nat → nat → Prop) a k b :
  (∀ x y, E x y → E' x y) → path E a k b → path E' a k b.
Proof.
  intros HE Hp. induction Hp as [|k b c Hp IH Hbc]; [apply path_nil|].
  eapply path_snoc; [apply IH | by apply HE].
Qed.

Lemma path_cons (E : nat → nat → Prop) a b k c :
  E a b → path E b k c → path E a (S k) c.
Proof.
  intros Hab Hp. induction Hp as [|k c d Hp IH Hcd].
  - eapply path_snoc; [apply path_nil | done].
  - eapply path_snoc; [apply IH | done].
Qed.

Lemma path_sym (E : nat → nat → Prop) a k b :
  (∀ x y, E x y → E y x) → path E a k b → path E b k a.
Proof.
  intros Hsym Hp. induction Hp as [|k b c Hp IH Hbc]; [apply path_nil|].
  eapply path_cons; [by apply Hsym | done].
Qed.

Lemma bfsLoop_fuel_mono fuel : ∀ fuel' heap target acts q res,
  fuel ≤ fuel' → bfsLoop fuel heap target acts q = Some res →
  bfsLoop fuel' heap target acts q = Some res.
Proof.
  induction fuel as [|fuel IH]; intros fuel' heap target acts q res Hle Hrun.
  - destruct q; [|done]. by destruct fuel'.
  - destruct q as [|a q]; [by destruct fuel'|].
    destruct fuel' as [|fuel']; [lia|]. simpl in *.
    destruct (scanMovies heap a target (moviesOf acts a) acts q); [done|].
    destruct (bfsLoop fuel _ _ _ _) as [res1|] eqn:Hrun1; [|done].
    by rewrite (IH fuel' _ _ _ _ res1 ltac:(lia) Hrun1).
Qed.

Lemma Inv_init heap acts0 start target :
  start < length acts0 → start ≠ target →
  Inv heap acts0 start target (mark (clearAll acts0) start 0) 0 [start].
Proof.
  intros Hs Hne.
  assert (Hlen : start < length (clearAll acts0)).
  { unfold clearAll. by rewrite length_fmap. }
  assert (Hvis : ∀ x, isVisited (mark (clearAll acts0) start 0) x = true → x = start).
  { intros x Hx. destruct (decide (x = start)) as [->|Hn]; [done|].
    rewrite isVisited_mark_ne, isVisited_clearAll in Hx; done. }
  split.
  - by rewrite mark_movies, clearAll_movies.
  - by rewrite isVisited_mark_eq, levelOf_mark_eq.
  - rewrite isVisited_mark_ne by done. apply isVisited_clearAll.
  - intros x Hx. apply list_elem_of_singleton in Hx as ->. by apply isVisited_mark_eq.
  - simpl. rewrite levelOf_mark_eq by done. done.
  - intros v Hv. apply Hvis in Hv as ->. rewrite levelOf_mark_eq by done. lia.
  - intros v Hv. apply Hvis in Hv as ->. exists 0. rewrite levelOf_mark_eq by done.
    split; [done | apply path_nil].
  - intros v w Hv Hnin _. apply Hvis in Hv as ->. exfalso. apply Hnin, list_elem_of_here.
  - intros v w Hv Hw _. apply Hvis in Hv as ->. apply Hvis in Hw as ->. lia.
Qed.

(** The search from [start], for a target other than [start]: it ends
    within one iteration per actor, with -1 when no path leads to the
    target and with the length of a shortest path otherwise. *)
Lemma BFSfuel_spec st start target fuel :
  (∀ m c, c ∈ castOf (movieHeap st) m → c < length (headActors st)) →
  start < length (headActors st) → start ≠ target →
  length (headActors st) ≤ fuel →
  ∃ r st' enq, BFSfuel fuel st start target = Some (r, st', enq) ∧
               Post (movieHeap st) (headActors st) start target r.
Proof.
  intros Hvalid Hs Hne Hfuel. unfold BFSfuel.
  destruct (Nat.eqb_spec start target) as [?|_]; [done|].
  pose proof (Inv_init (movieHeap st) _ _ _ Hs Hne) as HI.
  assert (Hcv : ∀ a c, costar (headActors st) (movieHeap st) a c →
                       c < length (headActors st)).
  { intros a c (m & _ & Hc). by eapply Hvalid. }
  destruct (bfsLoop_spec (movieHeap st) (headActors st) start target Hcv fuel
              _ [start] 0%Z HI) as (r & acts' & enq & Hrun & Hpost).
  - simpl. apply levelOf_mark_eq. unfold clearAll. by rewrite length_fmap.
  - assert (Hlen : start < length (clearAll (headActors st))).
    { unfold clearAll. by rewrite length_fmap. }
    pose proof (unvisitedCount_mark _ _ 0%Z Hlen (isVisited_clearAll _ _)) as Hc.
    rewrite unvisitedCount_clearAll in Hc. simpl. lia.
  - unfold enqueue. simpl app. rewrite Hrun. eauto.
Qed.

(** More fuel than one iteration per actor changes nothing. *)
Lemma BFS_fuel_enough st start target fuel :
  (∀ m c, c ∈ castOf (movieHeap st) m → c < length (headActors st)) →
  start < length (headActors st) →
  length (headActors st) ≤ fuel →
  BFSfuel fuel st start target = BFSfuel (length (headActors st)) st start target.
Proof.
  intros Hvalid Hs Hfuel.
  destruct (decide (start = target)) as [->|Hne].
  - unfold BFSfuel. by rewrite Nat.eqb_refl.
  - destruct (BFSfuel_spec st start target _ Hvalid Hs Hne (le_n _))
      as (r & st' & enq & Hrun & _).
    rewrite Hrun. unfold BFSfuel in *.
    destruct (Nat.eqb start target); [done|].
    destruct (bfsLoop (length (headActors st)) _ _ _ _) as [res|] eqn:Hl; [|done].
    by rewrite (bfsLoop_fuel_mono _ _ _ _ _ _ _ Hfuel Hl).
Qed.

(** ** The graph the parser builds *)

Lemma findActor_Some acts name i :
  findActor acts name = Some i →
  ∃ x, acts !! i = Some x ∧ actorName x = name.
Proof.
  revert i. induction acts as [|x acts IH]; intros i Hf; simpl in Hf; [done|].
  destruct (String.eqb_spec (actorName x) name) as [Heq|Hne].
  - inversion Hf; subst. by exists x.
  - destruct (findActor acts name) as [j|]; [|done]. simpl in Hf.
    inversion Hf; subst. by apply IH.
Qed.

Lemma findActor_None acts name :
  findActor acts name = None → name ∉ actorName <$> acts.
Proof.
  induction acts as [|x acts IH]; intros Hf; simpl in *; [apply not_elem_of_nil|].
  destruct (String.eqb_spec (actorName x) name) as [Heq|Hne]; [done|].
  destruct (findActor acts name) as [j|]; [done|].
  intros Hin. apply elem_of_cons in Hin as [?|?]; [done | by apply IH].
Qed.

Lemma isInLL_findActor acts name :
  isInLL acts name = true ↔ is_Some (findActor acts name).
Proof.
  induction acts as [|x acts IH]; simpl.
  - split; [done | by intros [? ?]].
  - destruct (String.eqb (actorName x) name); [by split; eauto|].
    rewrite IH. destruct (findActor acts name); simpl; split; eauto;
      by intros [? ?].
Qed.

Lemma nameOf_inj acts i j :
  uniqueNames acts → i < length acts → j < length acts →
  nameOf acts i = nameOf acts j → i = j.
Proof.
  intros Hu Hi Hj Heq. unfold nameOf in Heq.
  destruct (lookup_lt_is_Some_2 _ _ Hi) as [x Hx].
  destruct (lookup_lt_is_Some_2 _ _ Hj) as [y Hy].
  rewrite Hx, Hy in Heq.
  apply (NoDup_lookup _ i j (actorName x) Hu); rewrite list_lookup_fmap.
  - by rewrite Hx.
  - by rewrite Hy, Heq.
Qed.

Lemma castWalk_elem acts rest : ∀ cur actor c,
  uniqueNames acts → (∀ x, x ∈ cur :: rest → x < length acts) →
  actor < length acts →
  c ∈ castWalk acts cur rest actor ↔ c ∈ cur :: rest ∨ c = actor.
Proof.
  induction rest as [|nxt rest IH]; intros cur actor c Hu Hr Ha; simpl.
  - rewrite !elem_of_cons, elem_of_nil. tauto.
  - destruct (String.eqb_spec (nameOf acts cur) (nameOf acts actor)) as [Heq|Hne].
    + apply nameOf_inj in Heq; [|done|apply Hr, list_elem_of_here|done].
      subst. rewrite !elem_of_cons. tauto.
    + rewrite elem_of_cons, IH; [| done | | done].
      * rewrite !elem_of_cons. tauto.
      * intros x Hx. by apply Hr, list_elem_of_further.
Qed.

Lemma castAdd_elem acts cast actor c :
  uniqueNames acts → (∀ x, x ∈ cast → x < length acts) → actor < length acts →
  c ∈ castAdd acts cast actor ↔ c ∈ cast ∨ c = actor.
Proof.
  intros Hu Hr Ha. destruct cast as [|cur rest]; simpl.
  - rewrite list_elem_of_singleton, elem_of_nil. tauto.
  - by apply castWalk_elem.
Qed.

Lemma addMovie_names acts actor movie :
  actorName <$> addMovieToActorsMovies acts actor movie = actorName <$> acts.
Proof.
  apply list_eq; intros i. unfold addMovieToActorsMovies. rewrite !list_lookup_fmap.
  destruct (decide (actor = i)) as [->|Hne].
  - rewrite list_lookup_alter_eq. by destruct (acts !! i).
  - by rewrite list_lookup_alter_ne.
Qed.

Lemma addMovie_length acts actor movie :
  length (addMovieToActorsMovies acts actor movie) = length acts.
Proof. apply length_alter. Qed.

Lemma moviesOf_addMovie acts actor movie a :
  actor < length acts →
  moviesOf (addMovieToActorsMovies acts actor movie) a =
  if decide (a = actor) then moviesOf acts a ++ [movie] else moviesOf acts a.
Proof.
  intros Ha. unfold moviesOf, addMovieToActorsMovies.
  destruct (decide (a = actor)) as [->|Hne].
  - rewrite list_lookup_alter_eq.
    destruct (lookup_lt_is_Some_2 _ _ Ha) as [x ->]. done.
  - by rewrite list_lookup_alter_ne.
Qed.

Lemma castOf_addActor acts heap movie actor m :
  movie < length heap →
  castOf (addActorToMovie acts heap movie actor) m =
  if decide (m = movie) then castAdd acts (castOf heap m) actor else castOf heap m.
Proof.
  intros Hm. unfold castOf, addActorToMovie.
  destruct (decide (m = movie)) as [->|Hne].
  - rewrite list_lookup_alter_eq.
    destruct (lookup_lt_is_Some_2 _ _ Hm) as [x ->]. done.
  - by rewrite list_lookup_alter_ne.
Qed.

(** Linking an actor of the store and an allocated movie. *)
Lemma graphInv_link acts heap actor movie :
  graphInv acts heap → actor < length acts → movie < length heap →
  let acts' := addMovieToActorsMovies acts actor movie in
  graphInv acts' (addActorToMovie acts' heap movie actor).
Proof.
  intros HG Ha Hm acts'.
  assert (Hu : uniqueNames acts').
  { unfold uniqueNames, acts'. rewrite addMovie_names. apply HG. }
  assert (Hlen : length acts' = length acts) by apply addMovie_length.
  assert (Hadd : ∀ c, c ∈ castAdd acts' (castOf heap movie) actor ↔
                      c ∈ castOf heap movie ∨ c = actor).
  { intros c. apply castAdd_elem; [done | | lia].
    intros x Hx. rewrite Hlen. by eapply gi_casts. }
  split.
  - done.
  - intros a m. unfold acts'. rewrite moviesOf_addMovie by done.
    unfold addActorToMovie. rewrite length_alter.
    destruct (decide (a = actor)) as [->|Hne]; [|apply HG].
    intros Hin. apply elem_of_app in Hin as [Hin|Hin]; [by eapply gi_movies|].
    by apply list_elem_of_singleton in Hin as ->.
  - intros m c. rewrite castOf_addActor by done. rewrite Hlen.
    destruct (decide (m = movie)) as [->|Hne]; [|apply HG].
    rewrite Hadd. intros [Hin| ->]; [by eapply gi_casts | done].
  - intros a m. unfold acts' at 1. rewrite moviesOf_addMovie by done.
    rewrite castOf_addActor by done.
    destruct (decide (a = actor)) as [->|Hna]; destruct (decide (m = movie)) as [->|Hnm].
    + rewrite Hadd, elem_of_app, list_elem_of_singleton. tauto.
    + rewrite elem_of_app, list_elem_of_singleton, (gi_linked _ _ HG). tauto.
    + rewrite Hadd, (gi_linked _ _ HG). tauto.
    + apply HG.
Qed.

(** Appending an actor with a name the store does not have. *)
Lemma graphInv_fresh acts heap name :
  graphInv acts heap → name ∉ actorName <$> acts →
  graphInv (addActorNode acts (ActorNode name [] false 0)) heap.
Proof.
  intros HG Hfresh. unfold addActorNode.
  assert (Hmov : ∀ a, moviesOf (acts ++ [ActorNode name [] false 0]) a = moviesOf acts a).
  { intros a. unfold moviesOf. destruct (decide (a < length acts)) as [Hlt|Hge].
    - by rewrite lookup_app_l.
    - rewrite lookup_app_r by lia. rewrite (lookup_ge_None_2 acts) by lia.
      by destruct (a - length acts) as [|n]. }
  split.
  - unfold uniqueNames. rewrite fmap_app. apply NoDup_app. split; [apply HG|].
    split; [|apply NoDup_singleton].
    intros x Hx Hin. apply list_elem_of_singleton in Hin. simpl in Hin. by subst.
  - intros a m. rewrite Hmov. apply HG.
  - intros m c Hc. rewrite length_app. pose proof (gi_casts _ _ HG m c Hc). lia.
  - intros a m. rewrite Hmov. apply HG.
Qed.

(** Allocating a movie with an empty cast. *)
Lemma graphInv_alloc acts heap title :
  graphInv acts heap → graphInv acts (heap ++ [MovieNode title []]).
Proof.
  intros HG.
  assert (Hcast : ∀ m, castOf (heap ++ [MovieNode title []]) m = castOf heap m).
  { intros m. unfold castOf. destruct (decide (m < length heap)) as [Hlt|Hge].
    - by rewrite lookup_app_l.
    - rewrite lookup_app_r by lia. rewrite (lookup_ge_None_2 heap) by lia.
      by destruct (m - length heap) as [|n]. }
  split.
  - apply HG.
  - intros a m Hm. rewrite length_app. pose proof (gi_movies _ _ HG a m Hm). lia.
  - intros m c. rewrite Hcast. apply HG.
  - intros a m. rewrite Hcast. apply HG.
Qed.

Lemma parseLine_inv ps raw ps' :
  parseInv ps → parseLine ps raw = Some ps' → parseInv ps'.
Proof.
  intros [HG Hcur] Hstep. destruct raw as [|c rest]; [done|]. simpl in Hstep.
  destruct (isspace c); [by inversion Hstep; subst|].
  destruct (containsMovie (chomp c rest)).
  - unfold movieLine in Hstep. destruct (findMovie (chomp c rest)); [|done].
    inversion Hstep; subst; clear Hstep. split; simpl.
    + by apply graphInv_alloc.
    + intros movie [= <-]. rewrite length_app. simpl. lia.
  - unfold actorLine in Hstep. destruct (pmovie ps) as [movie|] eqn:Hmv; [|done].
    specialize (Hcur movie eq_refl).
    destruct (isInLL (headActors (pstore ps)) (chomp c rest)) eqn:Hin.
    + destruct (findActor _ _) as [actor|] eqn:Hf; [|done].
      inversion Hstep; subst; clear Hstep. split; simpl.
      * destruct (findActor_Some _ _ _ Hf) as (x & Hx & _).
        apply graphInv_link; [done | by eapply lookup_lt_Some | done].
      * intros m [= <-]. unfold addActorToMovie. by rewrite length_alter.
    + inversion Hstep; subst; clear Hstep. split; simpl.
      * apply graphInv_link; [|unfold addActorNode; rewrite length_app; simpl; lia|done].
        apply graphInv_fresh; [done|]. apply findActor_None.
        destruct (findActor _ _) eqn:Hf; [|done].
        assert (isInLL (headActors (pstore ps)) (chomp c rest) = true)
          by (apply isInLL_findActor; eauto). congruence.
      * intros m [= <-]. unfold addActorToMovie. by rewrite length_alter.
Qed.

Lemma parseLines_inv lines : ∀ ps ps',
  parseInv ps → parseLines ps lines = Some ps' → parseInv ps'.
Proof.
  induction lines as [|raw lines IH]; intros ps ps' HI Hrun; simpl in Hrun.
  - by inversion Hrun; subst.
  - destruct (parseLine ps raw) as [ps1|] eqn:Hstep; [|done].
    eapply IH; [|done]. by eapply parseLine_inv.
Qed.

Lemma parseInv_empty : parseInv (PState emptyStore None).
Proof.
  split; [|done]. simpl. split.
  - apply NoDup_nil_2.
  - intros a m Hm. unfold moviesOf in Hm. rewrite lookup_nil in Hm.
    by apply elem_of_nil in Hm.
  - intros m c Hc. unfold castOf in Hc. rewrite lookup_nil in Hc.
    by apply elem_of_nil in Hc.
  - intros a m. unfold moviesOf, castOf. rewrite !lookup_nil. by rewrite !elem_of_nil.
Qed.

(** Every store the parser returns is a well-formed undirected graph with
    one actor per name. *)
Lemma parseFile_graphInv lines st :
  parseFile lines = Some st → graphInv (headActors st) (movieHeap st).
Proof.
  unfold parseFile. intros Hp.
  destruct (parseLines _ lines) as [ps|] eqn:Hrun; [|done].
  destruct (parseLines_inv _ _ _ parseInv_empty Hrun) as [HG _].
  destruct (pmovie ps); inversion Hp; subst; done.
Qed.

(** ** What the search leaves untouched, and what goes through the queue *)

Lemma sameGraph_trans acts1 acts2 acts3 :
  sameGraph acts1 acts2 → sameGraph acts2 acts3 → sameGraph acts1 acts3.
Proof. intros [H1 H2] [H3 H4]. split; congruence. Qed.

Lemma sameGraph_mark acts c l : sameGraph (mark acts c l) acts.
Proof. split; [apply mark_movies | apply mark_names]. Qed.

Lemma sameGraph_clearAll acts : sameGraph (clearAll acts) acts.
Proof. split; [apply clearAll_movies | apply clearAll_names]. Qed.

Lemma sameGraph_length acts acts' : sameGraph acts acts' → length acts = length acts'.
Proof. intros [H _]. by eapply fmap_length_eq. Qed.

(** Two lists of actors with the same graph are reset to the same list. *)
Lemma clearAll_sameGraph acts acts' :
  sameGraph acts acts' → clearAll acts = clearAll acts'.
Proof.
  intros [Hm Hn]. apply list_eq; intros i. unfold clearAll. rewrite !list_lookup_fmap.
  assert (Hmi : (movies <$> acts) !! i = (movies <$> acts') !! i) by by rewrite Hm.
  assert (Hni : (actorName <$> acts) !! i = (actorName <$> acts') !! i) by by rewrite Hn.
  rewrite !list_lookup_fmap in Hmi. rewrite !list_lookup_fmap in Hni.
  destruct (acts !! i) as [[n1 m1 v1 l1]|], (acts' !! i) as [[n2 m2 v2 l2]|];
    simpl in *; try done.
  unfold setSearch. simpl. congruence.
Qed.

Lemma scanCast_frame co : ∀ a target acts q,
  sameGraph (scanActs (scanCast a target co acts q)) acts.
Proof.
  induction co as [|c co IH]; intros a target acts q; simpl; [done|].
  destruct (isVisited acts c); [apply IH|].
  destruct (Nat.eqb c target); simpl; [apply sameGraph_mark|].
  eapply sameGraph_trans; [apply IH | apply sameGraph_mark].
Qed.

Lemma scanMovies_frame heap ml : ∀ a target acts q,
  sameGraph (scanActs (scanMovies heap a target ml acts q)) acts.
Proof.
  induction ml as [|m ml IH]; intros a target acts q; simpl; [done|].
  pose proof (scanCast_frame (castOf heap m) a target acts q) as H1.
  destruct (scanCast a target (castOf heap m) acts q) as [l acts1 qf|acts1 q1]; [done|].
  eapply sameGraph_trans; [apply IH | done].
Qed.

Lemma bfsLoop_frame fuel : ∀ heap target acts q r acts' enq,
  bfsLoop fuel heap target acts q = Some (r, acts', enq) → sameGraph acts' acts.
Proof.
  induction fuel as [|fuel IH]; intros heap target acts q r acts' enq Hrun.
  - destruct q; simpl in Hrun; [|done]. by inversion Hrun; subst.
  - destruct q as [|a q]; simpl in Hrun; [by inversion Hrun; subst|].
    pose proof (scanMovies_frame heap (moviesOf acts a) a target acts q) as H1.
    destruct (scanMovies heap a target (moviesOf acts a) acts q)
      as [l acts1 qf|acts1 q1]; [by inversion Hrun; subst|].
    destruct (bfsLoop fuel heap target acts1 q1) as [[[r2 acts2] enq2]|] eqn:Hrun2; [|done].
    inversion Hrun; subst. eapply sameGraph_trans; [by eapply IH | done].
Qed.

Lemma isVisited_lt acts c : isVisited acts c = true → c < length acts.
Proof.
  unfold isVisited. destruct (acts !! c) eqn:Hc; [|done]. intros _. by eapply lookup_lt_Some.
Qed.

Lemma scanCast_pushedOnce co : ∀ a target acts q,
  (∀ c, c ∈ co → c < length acts) →
  pushedOnce acts q (scanCast a target co acts q).
Proof.
  induction co as [|c co IH]; intros a target acts q Hco; simpl.
  - split; [done|]. exists []. rewrite app_nil_r. split_and!; [done | apply NoDup_nil_2 |].
    intros c Hc. by apply elem_of_nil in Hc.
  - assert (Hco' : ∀ c', c' ∈ co → c' < length acts).
    { intros c' Hc'. by apply Hco, list_elem_of_further. }
    destruct (isVisited acts c) eqn:Hc; [by apply IH|].
    assert (Hlen : c < length acts) by apply Hco, list_elem_of_here.
    destruct (Nat.eqb c target); simpl.
    + split; [intros x Hx; by apply isVisited_mark_mono|].
      exists []. rewrite app_nil_r. split_and!; [done | apply NoDup_nil_2 |].
      intros c' Hc'. by apply elem_of_nil in Hc'.
    + specialize (IH a target (mark acts c (levelOf acts a + 1)) (enqueue q c)).
      destruct IH as (Hmono & new & Hq & Hnd & Hnew).
      { intros c' Hc'. rewrite mark_length. by apply Hco'. }
      split; [intros x Hx; by apply Hmono, isVisited_mark_mono|].
      exists (c :: new). unfold enqueue in Hq. rewrite <- app_assoc in Hq.
      split_and!; [done | |].
      * apply NoDup_cons. split; [|done]. intros Hin.
        destruct (Hnew _ Hin) as [Hf _]. by rewrite isVisited_mark_eq in Hf.
      * intros c' Hc'. apply elem_of_cons in Hc' as [->|Hc'].
        -- split; [done|]. by apply Hmono, isVisited_mark_eq.
        -- destruct (Hnew _ Hc') as [Hf Ht]. split; [|done].
           destruct (decide (c' = c)) as [->|Hne]; [done|].
           by rewrite isVisited_mark_ne in Hf.
Qed.

Lemma scanMovies_pushedOnce heap ml : ∀ a target acts q,
  (∀ m c, c ∈ castOf heap m → c < length acts) →
  pushedOnce acts q (scanMovies heap a target ml acts q).
Proof.
  induction ml as [|m ml IH]; intros a target acts q Hvalid; simpl.
  - split; [done|]. exists []. rewrite app_nil_r. split_and!; [done | apply NoDup_nil_2 |].
    intros c Hc. by apply elem_of_nil in Hc.
  - pose proof (scanCast_pushedOnce (castOf heap m) a target acts q (Hvalid m)) as H1.
    pose proof (scanCast_frame (castOf heap m) a target acts q) as Hf1.
    destruct (scanCast a target (castOf heap m) acts q) as [l acts1 qf|acts1 q1]; [done|].
    unfold pushedOnce in H1. simpl in H1, Hf1.
    destruct H1 as (Hmono1 & new1 & -> & Hnd1 & Hnew1).
    specialize (IH a target acts1 (q ++ new1)).
    destruct IH as (Hmono2 & new2 & Hq2 & Hnd2 & Hnew2).
    { intros m' c Hc. rewrite (sameGraph_length _ _ Hf1). by eapply Hvalid. }
    split; [by auto|]. exists (new1 ++ new2). rewrite <- app_assoc in Hq2.
    split_and!; [done | |].
    + apply NoDup_app. split_and!; [done | | done].
      intros x Hx1 Hx2. destruct (Hnew1 _ Hx1) as [_ Ht]. destruct (Hnew2 _ Hx2) as [Hf _].
      congruence.
    + intros c Hc. apply elem_of_app in Hc as [Hc|Hc].
      * destruct (Hnew1 _ Hc). auto.
      * destruct (Hnew2 _ Hc) as [Hf Ht]. split; [|done].
        destruct (isVisited acts c) eqn:Hv; [|done]. apply Hmono1 in Hv. congruence.
Qed.

(** No actor goes through the queue twice. *)
Lemma bfsLoop_enqueued_once fuel : ∀ heap target acts q r acts' enq,
  (∀ m c, c ∈ castOf heap m → c < length acts) →
  NoDup q → (∀ x, x ∈ q → isVisited acts x = true) →
  bfsLoop fuel heap target acts q = Some (r, acts', enq) →
  NoDup enq ∧
  ∀ x, x ∈ enq → x < length acts ∧ (x ∈ q ∨ isVisited acts x = false).
Proof.
  induction fuel as [|fuel IH]; intros heap target acts q r acts' enq Hvalid Hnd Hq Hrun.
  - destruct q; simpl in Hrun; [|done]. inversion Hrun; subst.
    split; [apply NoDup_nil_2|]. intros x Hx. by apply elem_of_nil in Hx.
  - destruct q as [|a q]; simpl in Hrun.
    { inversion Hrun; subst. split; [apply NoDup_nil_2|].
      intros x Hx. by apply elem_of_nil in Hx. }
    apply NoDup_cons in Hnd as [Haq Hnd].
    assert (Hav : isVisited acts a = true) by apply Hq, list_elem_of_here.
    pose proof (scanMovies_pushedOnce heap (moviesOf acts a) a target acts q Hvalid) as H1.
    pose proof (scanMovies_frame heap (moviesOf acts a) a target acts q) as Hf1.
    assert (Hstep : ∀ acts1 q1 tl,
      scanActs (scanMovies heap a target (moviesOf acts a) acts q) = acts1 →
      scanQueue (scanMovies heap a target (moviesOf acts a) acts q) = q1 →
      NoDup tl → (∀ x, x ∈ tl → x < length acts1 ∧ (x ∈ q1 ∨ isVisited acts1 x = false)) →
      NoDup (a :: tl) ∧
      ∀ x, x ∈ a :: tl → x < length acts ∧ (x ∈ a :: q ∨ isVisited acts x = false)).
    { intros acts1 q1 tl <- <- Htl Hin.
      destruct H1 as (Hmono & new & Hq1 & Hndn & Hnew). rewrite Hq1 in Hin.
      rewrite (sameGraph_length _ _ Hf1) in Hin. split.
      - apply NoDup_cons. split; [|done]. intros Ha.
        destruct (Hin _ Ha) as [_ [Ha'|Ha']].
        + apply elem_of_app in Ha' as [?|Ha']; [done|].
          destruct (Hnew _ Ha'). congruence.
        + apply Hmono in Hav. congruence.
      - intros x Hx. apply elem_of_cons in Hx as [->|Hx].
        + split; [by apply isVisited_lt | left; apply list_elem_of_here].
        + destruct (Hin _ Hx) as [Hlt [Hx'|Hx']]; split; try done.
          * apply elem_of_app in Hx' as [?|Hx']; [left; by apply list_elem_of_further|].
            right. by destruct (Hnew _ Hx').
          * right. destruct (isVisited acts x) eqn:Hv; [|done].
            apply Hmono in Hv. congruence. }
    destruct (scanMovies heap a target (moviesOf acts a) acts q)
      as [l acts1 qf|acts1 q1] eqn:Hscan; unfold pushedOnce in H1; simpl in *.
    + inversion Hrun; subst. apply (Hstep acts' qf qf eq_refl eq_refl).
      * destruct H1 as (_ & new & -> & Hndn & Hnew). apply NoDup_app.
        split_and!; [done | | done]. intros x Hx1 Hx2.
        destruct (Hnew _ Hx2). rewrite Hq in H; [done | by apply list_elem_of_further].
      * intros x Hx. split; [|by left].
        destruct H1 as (Hmono & new & -> & Hndn & Hnew).
        apply isVisited_lt. apply elem_of_app in Hx as [Hx|Hx].
        -- by apply Hmono, Hq, list_elem_of_further.
        -- by destruct (Hnew _ Hx).
    + destruct (bfsLoop fuel heap target acts1 q1) as [[[r2 acts2] enq2]|] eqn:Hrun2; [|done].
      inversion Hrun; subst.
      destruct (IH heap target acts1 q1 r acts' enq2) as [Hnd2 Hin2]; try done.
      * intros m c Hc. rewrite (sameGraph_length _ _ Hf1). by eapply Hvalid.
      * destruct H1 as (_ & new & -> & Hndn & Hnew). apply NoDup_app.
        split_and!; [done | | done]. intros x Hx1 Hx2.
        destruct (Hnew _ Hx2). rewrite Hq in H; [done | by apply list_elem_of_further].
      * intros x Hx. destruct H1 as (Hmono & new & -> & Hndn & Hnew).
        apply elem_of_app in Hx as [Hx|Hx].
        -- by apply Hmono, Hq, list_elem_of_further.
        -- by destruct (Hnew _ Hx).
      * by apply (Hstep acts1 q1 enq2).
Qed.

(** ** The search on a graph of the parser *)

Lemma costar_sharesMovie acts heap a c :
  graphInv acts heap → costar acts heap a c ↔ sharesMovie acts a c.
Proof.
  intros HG. unfold costar, sharesMovie.
  split; intros (m & Hm & Hc); exists m; split; try done; by apply (gi_linked _ _ HG).
Qed.

Lemma sharesMovie_sym acts a c : sharesMovie acts a c → sharesMovie acts c a.
Proof. intros (m & Ha & Hc). by exists m. Qed.

(** A call leaves the graph as it is. *)
Lemma BFSfuel_frame fuel st start target r st' enq :
  BFSfuel fuel st start target = Some (r, st', enq) →
  sameGraph (headActors st') (headActors st) ∧
  movieHeap st' = movieHeap st ∧ headMovies st' = headMovies st.
Proof.
  unfold BFSfuel. destruct (Nat.eqb start target).
  - intros [= <- <- <-]. done.
  - destruct (bfsLoop _ _ _ _ _) as [[[r1 acts1] enq1]|] eqn:Hrun; [|done].
    intros [= <- <- <-]. simpl. split; [|done].
    eapply sameGraph_trans; [by eapply bfsLoop_frame|].
    eapply sameGraph_trans; [apply sameGraph_mark | apply sameGraph_clearAll].
Qed.

Lemma BFS_frame st start target r st' :
  BFS st start target = Some (r, st') →
  sameGraph (headActors st') (headActors st) ∧
  movieHeap st' = movieHeap st ∧ headMovies st' = headMovies st.
Proof.
  unfold BFS. destruct (BFSfuel _ _ _ _) as [[[r1 st1] enq]|] eqn:Hrun; [|done].
  intros [= <- <-]. by eapply BFSfuel_frame.
Qed.

(** For distinct actors, the search fields the call finds do not matter. *)
Lemma BFSfuel_sameGraph fuel st1 st2 start target :
  start ≠ target →
  sameGraph (headActors st1) (headActors st2) →
  movieHeap st1 = movieHeap st2 → headMovies st1 = headMovies st2 →
  BFSfuel fuel st1 start target = BFSfuel fuel st2 start target.
Proof.
  intros Hne Hs Hh Hm. unfold BFSfuel.
  destruct (Nat.eqb_spec start target) as [?|_]; [done|].
  by rewrite (clearAll_sameGraph _ _ Hs), Hh, Hm.
Qed.

Lemma BFS_sameGraph st1 st2 start target :
  start ≠ target →
  sameGraph (headActors st1) (headActors st2) →
  movieHeap st1 = movieHeap st2 → headMovies st1 = headMovies st2 →
  BFS st1 start target = BFS st2 start target.
Proof.
  intros Hne Hs Hh Hm. unfold BFS.
  by rewrite (sameGraph_length _ _ Hs), (BFSfuel_sameGraph _ st1 st2).
Qed.

Lemma BFS_answer st a b :
  graphInv (headActors st) (movieHeap st) → a < length (headActors st) →
  ∃ r st', BFS st a b = Some (r, st') ∧ answer (headActors st) a b r.
Proof.
  intros HG Ha. destruct (decide (a = b)) as [<-|Hne].
  - exists 0%Z, st. unfold BFS, BFSfuel. rewrite Nat.eqb_refl. split; [done|].
    right. exists 0. split; [done|]. split; [apply path_nil | lia].
  - destruct (BFSfuel_spec st a b _ (gi_casts _ _ HG) Ha Hne (le_n _))
      as (r & st' & enq & Hrun & Hpost).
    exists r, st'. unfold BFS. rewrite Hrun. split; [done|].
    assert (H1 : ∀ k, path (costar (headActors st) (movieHeap st)) a k b →
                      path (sharesMovie (headActors st)) a k b).
    { intros k. apply path_ext. intros x y. by apply costar_sharesMovie. }
    assert (H2 : ∀ k, path (sharesMovie (headActors st)) a k b →
                      path (costar (headActors st) (movieHeap st)) a k b).
    { intros k. apply path_ext. intros x y. by apply costar_sharesMovie. }
    destruct Hpost as [[-> Hno]|(d & -> & Hp & Hmin)].
    + left. split; [done|]. intros k Hk. by apply (Hno k), H2.
    + right. exists d. split; [done|]. split; [by apply H1|].
      intros j Hj. by apply Hmin, H2.
Qed.

Lemma answer_sym acts a b r r' :
  answer acts a b r → answer acts b a r' → r = r'.
Proof.
  assert (Hrev : ∀ x y k, path (sharesMovie acts) x k y → path (sharesMovie acts) y k x).
  { intros x y k. apply path_sym. intros ??. apply sharesMovie_sym. }
  intros [[-> Hno]|(d & -> & Hp & Hmin)] [[-> Hno']|(d' & -> & Hp' & Hmin')].
  - done.
  - exfalso. by apply (Hno d'), Hrev.
  - exfalso. by apply (Hno' d), Hrev.
  - pose proof (Hmin _ (Hrev _ _ _ Hp')). pose proof (Hmin' _ (Hrev _ _ _ Hp)). lia.
Qed.

(** ** Lines and titles *)

Lemma containsMovie_spec line :
  containsMovie line = true ↔ colon ∈ list_ascii_of_string line.
Proof.
  induction line as [|c line IH]; simpl.
  - rewrite elem_of_nil. split; [done | tauto].
  - rewrite elem_of_cons. destruct (Ascii.eqb_spec c colon) as [->|Hne].
    + split; auto.
    + rewrite IH. split; [auto | intros [?|?]; [congruence | done]].
Qed.

Lemma chars_last c s :
  list_ascii_of_string (String c s) =
  list_ascii_of_string (dropLast c s) ++ [lastChar c s].
Proof.
  revert c. induction s as [|d s IH]; intros c; simpl; [done|].
  f_equal. apply IH.
Qed.

Lemma colon_chomp c rest :
  colon ∈ list_ascii_of_string (chomp c rest) ↔
  colon ∈ list_ascii_of_string (String c rest).
Proof.
  unfold chomp. destruct (Ascii.eqb_spec (lastChar c rest) newline) as [Heq|Hne]; [|done].
  rewrite (chars_last c rest), elem_of_app, list_elem_of_singleton, Heq.
  split; [auto | intros [?|?]; done].
Qed.

Lemma findMovie_title pre d title :
  colon ∉ list_ascii_of_string pre →
  findMovie (pre ++ String colon (String d title)) = Some title.
Proof.
  induction pre as [|c pre IH]; intros Hpre; simpl.
  - done.
  - simpl in Hpre. rewrite not_elem_of_cons in Hpre. destruct Hpre as [Hc Hpre].
    destruct (Ascii.eqb_spec c colon) as [->|_]; [done|]. by apply IH.
Qed.

Lemma findMovie_bare pre :
  colon ∉ list_ascii_of_string pre →
  findMovie (pre ++ String colon EmptyString) = None.
Proof.
  induction pre as [|c pre IH]; intros Hpre; simpl.
  - done.
  - simpl in Hpre. rewrite not_elem_of_cons in Hpre. destruct Hpre as [Hc Hpre].
    destruct (Ascii.eqb_spec c colon) as [->|_]; [done|]. by apply IH.
Qed.

Lemma substring_all s : substring 0 (String.length s) s = s.
Proof. induction s as [|c s IH]; simpl; [done | by rewrite IH]. Qed.

Lemma substring_skip pre n s :
  substring (String.length pre + n) (String.length s - n) (pre ++ s)%string =
  substring n (String.length s - n) s.
Proof. induction pre as [|c pre IH]; simpl; [done | apply IH]. Qed.

(** A flag that is set stays set through the search. *)
Lemma scanCast_visited_mono co : ∀ a target acts q x,
  isVisited acts x = true →
  isVisited (scanActs (scanCast a target co acts q)) x = true.
Proof.
  induction co as [|c co IH]; intros a target acts q x Hx; simpl; [done|].
  destruct (isVisited acts c); [by apply IH|].
  destruct (Nat.eqb c target); simpl; [by apply isVisited_mark_mono|].
  by apply IH, isVisited_mark_mono.
Qed.

Lemma scanMovies_visited_mono heap ml : ∀ a target acts q x,
  isVisited acts x = true →
  isVisited (scanActs (scanMovies heap a target ml acts q)) x = true.
Proof.
  induction ml as [|m ml IH]; intros a target acts q x Hx; simpl; [done|].
  pose proof (scanCast_visited_mono (castOf heap m) a target acts q x Hx) as H1.
  destruct (scanCast a target (castOf heap m) acts q); [done|]. by apply IH.
Qed.

Lemma bfsLoop_visited_mono fuel : ∀ heap target acts q r acts' enq x,
  bfsLoop fuel heap target acts q = Some (r, acts', enq) →
  isVisited acts x = true → isVisited acts' x = true.
Proof.
  induction fuel as [|fuel IH]; intros heap target acts q r acts' enq x Hrun Hx.
  - destruct q; simpl in Hrun; [|done]. by inversion Hrun; subst.
  - destruct q as [|a q]; simpl in Hrun; [by inversion Hrun; subst|].
    pose proof (scanMovies_visited_mono heap (moviesOf acts a) a target acts q x Hx) as H1.
    destruct (scanMovies heap a target (moviesOf acts a) acts q)
      as [l acts1 qf|acts1 q1]; [by inversion Hrun; subst|].
    destruct (bfsLoop fuel heap target acts1 q1) as [[[r2 acts2] enq2]|] eqn:Hrun2; [|done].
    inversion Hrun; subst. by eapply IH.
Qed.

Lemma islands_apart k : ¬ path (sharesMovie (headActors islandsStore)) 0 k 1.
Proof.
  assert (Hstay : ∀ j b, path (sharesMovie (headActors islandsStore)) 0 j b → b = 0).
  { intros j b Hp. induction Hp as [|j b c Hp IH Hbc]; [done|]. subst b.
    destruct Hbc as (m & Hm & Hc). simpl in Hm.
    apply list_elem_of_singleton in Hm as ->.
    destruct c as [|[|c]]; simpl in Hc; [done | | by apply elem_of_nil in Hc].
    by apply list_elem_of_singleton in Hc. }
  intros Hp. by apply Hstay in Hp.
Qed.

Lemma BFS_refl st a : BFS st a a = Some (0%Z, st).
Proof. unfold BFS, BFSfuel. by rewrite Nat.eqb_refl. Qed.

(** * The claims *)

(** C1. On a graph built by the parser, whenever some chain of shared
    movies leads from the anchor to the target, [BFS(anchor, target)]
    returns the length of a shortest such chain. *)
Theorem BFS_shortest_distance lines st anchor target k :
  parseFile lines = Some st →
  anchor < length (headActors st) → target < length (headActors st) →
  path (sharesMovie (headActors st)) anchor k target →
  ∃ d st', BFS st anchor target = Some (Z.of_nat d, st') ∧
           shortest (sharesMovie (headActors st)) anchor target d.
Proof.
  intros Hparse Ha _ Hp. pose proof (parseFile_graphInv _ _ Hparse) as HG.
  destruct (BFS_answer st anchor target HG Ha) as (r & st' & Hrun & Hans).
  destruct Hans as [[_ Hno]|(d & -> & Hd)]; [by destruct (Hno k)|].
  by exists d, st'.
Qed.

Lemma BFS_shortest_distance_witness :
  ∃ d st', BFS scenarioStore 2 0 = Some (Z.of_nat d, st') ∧
           shortest (sharesMovie (headActors scenarioStore)) 2 0 d.
Proof.
  apply (BFS_shortest_distance scenario scenarioStore 2 0 2).
  - vm_compute. reflexivity.
  - simpl. lia.
  - simpl. lia.
  - apply (path_snoc _ _ 1 1 0).
    + apply (path_snoc _ _ 0 2 1); [apply path_nil|].
      exists 1. simpl. split; repeat constructor.
    + exists 0. simpl. split; repeat constructor.
Defined.

(** C2. [BFS(A, A)] returns 0 and leaves every field of the store as it
    was.  The shortcut is taken for the same node only: for two different
    nodes, whatever their names, the call goes on to the search, and the
    start node comes out marked. *)
Theorem BFS_same_actor :
  (∀ st a, BFS st a a = Some (0%Z, st)) ∧
  (∀ st a b r st', a ≠ b → a < length (headActors st) →
     BFS st a b = Some (r, st') → isVisited (headActors st') a = true).
Proof.
  split.
  - intros st a. unfold BFS, BFSfuel. by rewrite Nat.eqb_refl.
  - intros st a b r st' Hne Ha. unfold BFS, BFSfuel.
    destruct (Nat.eqb_spec a b) as [?|_]; [done|].
    destruct (bfsLoop _ _ _ _ _) as [[[r1 acts1] enq]|] eqn:Hloop; [|done].
    simpl. intros [= <- <-]. simpl.
    eapply bfsLoop_visited_mono; [done|].
    apply isVisited_mark_eq. unfold clearAll. by rewrite length_fmap.
Qed.

Lemma BFS_same_actor_witness :
  BFS twins 0 0 = Some (0%Z, twins) ∧
  ∃ r st', BFS twins 1 0 = Some (r, st') ∧ isVisited (headActors st') 1 = true.
Proof.
  destruct BFS_same_actor as [Hsame Hother]. split; [apply Hsame|].
  assert (Hrun : ∃ r st', BFS twins 1 0 = Some (r, st')).
  { eexists _, _. vm_compute. reflexivity. }
  destruct Hrun as (r & st' & Hrun). exists r, st'. split; [exact Hrun|].
  apply (Hother twins 1 0 r st'); [lia | simpl; lia | exact Hrun].
Defined.

Example BFS_twins : ∃ st', BFS twins 1 0 = Some (1%Z, st') ∧ st' ≠ twins.
Proof. eexists. split; [vm_compute; reflexivity | done]. Qed.

(** C3. On a graph built by the parser, for two distinct actors that no
    chain of shared movies connects, [BFS(A, B)] runs until the queue is
    empty and returns -1; when [A] is the actor found under the name
    "Kevin Bacon" and [B] the one the query names, the driver prints
    "Score: No Bacon!" on the standard output and does not set [errSeen]. *)
Theorem no_path_no_bacon lines st A B :
  parseFile lines = Some st →
  A < length (headActors st) → B < length (headActors st) → A ≠ B →
  (∀ k, ¬ path (sharesMovie (headActors st)) A k B) →
  ∃ st', BFS st A B = Some ((-1)%Z, st') ∧
    ∀ c rest,
      findActor (headActors st) "Kevin Bacon" = Some A →
      findActor (headActors st) (chomp c rest) = Some B →
      queryLine st (String c rest) = Some ([CallBFS A B; Stdout noBacon], st', false).
Proof.
  intros Hparse HA _ _ Hno. pose proof (parseFile_graphInv _ _ Hparse) as HG.
  destruct (BFS_answer st A B HG HA) as (r & st' & Hrun & Hans).
  destruct Hans as [[-> _]|(d & _ & Hp & _)]; [|by destruct (Hno d)].
  exists st'. split; [done|]. intros c rest HfA HfB. simpl.
  by rewrite HfB, HfA, Hrun.
Qed.

Lemma no_path_no_bacon_witness :
  ∃ st', BFS islandsStore 0 1 = Some ((-1)%Z, st') ∧
         queryLine islandsStore ("Tom Hanks" ++ nl)
         = Some ([CallBFS 0 1; Stdout noBacon], st', false).
Proof.
  destruct (no_path_no_bacon islands islandsStore 0 1) as (st' & Hrun & Hq).
  - vm_compute. reflexivity.
  - simpl. lia.
  - simpl. lia.
  - lia.
  - apply islands_apart.
  - exists st'. split; [exact Hrun|].
    apply (Hq "T"%char ("om Hanks" ++ nl)%string); vm_compute; reflexivity.
Defined.

(** C4, at the input on which it fails: a name repeated on the line after
    its first occurrence is compared with no node of the cast (the only
    node has no successor) and is linked a second time. *)
Example cast_repeats_actor :
  parseFile twice = Some twiceStore ∧
  castOf (movieHeap twiceStore) 0 = [0; 0] ∧
  nameOf (headActors twiceStore) 0 = "A"%string.
Proof. split; [vm_compute; reflexivity | done]. Qed.

(** The node the walk stops at is never compared, whatever the names. *)
Lemma castAdd_last_unchecked acts c actor : castAdd acts [c] actor = [c; actor].
Proof. reflexivity. Qed.

(** The comparison does catch a name that is not the last of the cast. *)
Example cast_skips_earlier_actor :
  castAdd (headActors scenarioStore) [0; 1] 0 = [0; 1].
Proof. reflexivity. Qed.

(** C5 as stated fails: the movie is appended to the membership list of an
    actor that already has it. *)
Lemma membership_repeats_movie :
  ∃ st, parseFile twice = Some st ∧ moviesOf (headActors st) 0 = [0; 0] ∧
        ¬ NoDup (moviesOf (headActors st) 0).
Proof.
  exists twiceStore. split; [vm_compute; reflexivity|]. split; [done|].
  simpl. intros Hnd. apply NoDup_cons in Hnd as [Hin _]. apply Hin, list_elem_of_here.
Qed.

(** C5, amended.  After any lines parsed, a line with a name the store
    already has adds no actor: the node found under that name is reused and
    names stay unique; the current movie is appended to the membership
    list of that node without a search of the list, and the node is in the
    cast of the movie afterwards. *)
Theorem known_actor_reused lines ps name actor movie :
  parseLines (PState emptyStore None) lines = Some ps →
  pmovie ps = Some movie →
  findActor (headActors (pstore ps)) name = Some actor →
  ∃ ps', actorLine ps name = Some ps' ∧
    actorName <$> headActors (pstore ps') = actorName <$> headActors (pstore ps) ∧
    uniqueNames (headActors (pstore ps')) ∧
    moviesOf (headActors (pstore ps')) actor
      = moviesOf (headActors (pstore ps)) actor ++ [movie] ∧
    actor ∈ castOf (movieHeap (pstore ps')) movie.
Proof.
  intros Hrun Hmv Hf.
  destruct (parseLines_inv _ _ _ parseInv_empty Hrun) as [HG Hcur].
  specialize (Hcur _ Hmv).
  destruct (findActor_Some _ _ _ Hf) as (x & Hx & Hname).
  assert (Ha : actor < length (headActors (pstore ps))) by by eapply lookup_lt_Some.
  assert (Hin : isInLL (headActors (pstore ps)) name = true).
  { apply isInLL_findActor. eauto. }
  pose proof (graphInv_link _ _ actor movie HG Ha Hcur) as HG'. simpl in HG'.
  unfold actorLine. rewrite Hmv, Hin, Hf. eexists. split; [done|]. simpl.
  split_and!.
  - apply addMovie_names.
  - apply HG'.
  - rewrite moviesOf_addMovie by done. by rewrite decide_True.
  - apply (gi_linked _ _ HG'). rewrite moviesOf_addMovie by done.
    rewrite decide_True by done. apply elem_of_app. right. apply list_elem_of_here.
Qed.

Lemma known_actor_reused_witness :
  ∃ ps', actorLine (PState (Store [ActorNode "A" [0] false 0] [MovieNode "X" [0]] [])
                           (Some 0)) "A" = Some ps' ∧
    actorName <$> headActors (pstore ps') = ["A"%string] ∧
    uniqueNames (headActors (pstore ps')) ∧
    moviesOf (headActors (pstore ps')) 0 = [0] ++ [0] ∧
    0 ∈ castOf (movieHeap (pstore ps')) 0.
Proof.
  apply (known_actor_reused
           [("Movie: X" ++ nl)%string; ("A" ++ nl)%string]
           (PState (Store [ActorNode "A" [0] false 0] [MovieNode "X" [0]] []) (Some 0))
           "A" 0 0).
  - vm_compute. reflexivity.
  - reflexivity.
  - reflexivity.
Defined.

(** C6. On a graph built by the parser, [BFS(A, B)] and [BFS(B, A)] return
    the same value: on the same store, and when the second call runs on
    the store the first one leaves. *)
Theorem BFS_symmetric lines st A B :
  parseFile lines = Some st →
  A < length (headActors st) → B < length (headActors st) →
  ∃ r stA stB stB',
    BFS st A B = Some (r, stA) ∧ BFS st B A = Some (r, stB) ∧
    BFS stA B A = Some (r, stB').
Proof.
  intros Hparse HA HB. pose proof (parseFile_graphInv _ _ Hparse) as HG.
  destruct (BFS_answer st A B HG HA) as (r & stA & HrunA & HansA).
  destruct (BFS_answer st B A HG HB) as (r' & stB & HrunB & HansB).
  pose proof (answer_sym _ _ _ _ _ HansA HansB) as <-.
  destruct (BFS_frame _ _ _ _ _ HrunA) as (Hs & Hh & Hm).
  destruct (decide (B = A)) as [->|Hne].
  - exists r, stA, stB, stA. split_and!; try done.
    rewrite BFS_refl in HrunA. inversion HrunA; subst.
    apply BFS_refl.
  - exists r, stA, stB, stB. split_and!; try done.
    by rewrite (BFS_sameGraph stA st B A Hne Hs Hh Hm).
Qed.

Lemma BFS_symmetric_witness :
  ∃ r stA stB stB',
    BFS scenarioStore 2 0 = Some (r, stA) ∧ BFS scenarioStore 0 2 = Some (r, stB) ∧
    BFS stA 0 2 = Some (r, stB').
Proof.
  apply (BFS_symmetric scenario scenarioStore 2 0).
  - vm_compute. reflexivity.
  - simpl. lia.
  - simpl. lia.
Defined.

(** C7 as stated fails on a header line that ends with its first ':':
    [movie + 2] points behind the terminator and no title is read from the
    line. *)
Lemma header_without_title :
  containsMovie "Movie:" = true ∧ findMovie "Movie:" = None.
Proof. split; reflexivity. Qed.

(** C7, amended.  A line that does not start with white space goes to the
    movie branch exactly when it contains a ':' (the trailing newline
    removed, which changes nothing to that); and when at least one
    character follows the first ':' of a line, the title is what follows
    that character, the substring that starts two characters after the
    ':' and runs to the end of the line, and it is the name of the movie
    the parser allocates. *)
Theorem header_line_title :
  (∀ ps c rest, isspace c = false →
     (containsMovie (chomp c rest) = true ↔
      colon ∈ list_ascii_of_string (String c rest)) ∧
     parseLine ps (String c rest) =
       if containsMovie (chomp c rest) then movieLine ps (chomp c rest)
       else actorLine ps (chomp c rest)) ∧
  (∀ ps pre d title, colon ∉ list_ascii_of_string pre →
     let line := (pre ++ String colon (String d title))%string in
     findMovie line = Some title ∧
     title = substring (String.length pre + 2) (String.length title) line ∧
     ∃ ps', movieLine ps line = Some ps' ∧
            movieName <$> movieHeap (pstore ps')
            = (movieName <$> movieHeap (pstore ps)) ++ [title]).
Proof.
  split.
  - intros ps c rest Hc. split.
    + by rewrite containsMovie_spec, colon_chomp.
    + simpl. by rewrite Hc.
  - intros ps pre d title Hpre line. subst line.
    pose proof (findMovie_title pre d title Hpre) as Hf. split; [done|]. split.
    + pose proof (substring_skip pre 2 (String colon (String d title))) as Hs.
      simpl in Hs. rewrite Nat.sub_0_r in Hs. rewrite Hs.
      symmetry. apply substring_all.
    + unfold movieLine. rewrite Hf. eexists. split; [done|]. simpl.
      by rewrite fmap_app.
Qed.

Lemma header_line_title_witness :
  (containsMovie (chomp "M" ("ovie: X-Men" ++ nl)) = true ↔
   colon ∈ list_ascii_of_string ("Movie: X-Men" ++ nl)) ∧
  findMovie "Movie: X-Men" = Some "X-Men"%string.
Proof.
  destruct header_line_title as [Hclass Htitle]. split.
  - apply (Hclass (PState emptyStore None) "M"%char ("ovie: X-Men" ++ nl)%string).
    reflexivity.
  - apply (Htitle (PState emptyStore None) "Movie"%string " "%char "X-Men"%string).
    apply (bool_decide_unpack _). vm_compute. exact I.
Defined.

(** C8 as stated fails: without the anchor, a query for a name that is not
    in the graph gets the complaint on the standard error and no score
    line. *)
Lemma absent_target_not_scored :
  parseFile strangers = Some strangersStore ∧
  findActor (headActors strangersStore) "Kevin Bacon" = None ∧
  queryLine strangersStore ("Tom Hanks" ++ nl)
  = Some ([Stderr notFound], strangersStore, true) ∧
  run strangers [("Tom Hanks" ++ nl)%string] = Some ([Stderr notFound], 1%Z).
Proof. split_and!; vm_compute; reflexivity. Qed.

(** C8, amended.  When no actor is named "Kevin Bacon", the queries are
    answered one by one without any call of [BFS]: "Score: No Bacon!" for
    a name that is in the graph, "Actor Could Not be Found." on the
    standard error (and no score line) for a name that is not. *)
Theorem no_anchor_no_search st queries errSeen :
  findActor (headActors st) "Kevin Bacon" = None →
  Forall (λ raw, raw ≠ EmptyString) queries →
  ∃ err,
    queryLoop st errSeen queries
    = Some (unanchoredAnswer (headActors st) <$> queries, err) ∧
    ∀ a b, CallBFS a b ∉ unanchoredAnswer (headActors st) <$> queries.
Proof.
  intros Hbacon Hq. revert errSeen.
  induction Hq as [|raw queries Hraw Hq IH]; intros errSeen.
  - exists errSeen. split; [done|]. intros a b Hin. by apply elem_of_nil in Hin.
  - destruct raw as [|c rest]; [done|].
    assert (Hstep : ∃ err, queryLine st (String c rest)
              = Some ([unanchoredAnswer (headActors st) (String c rest)], st, err) ∧
              ∀ a b, unanchoredAnswer (headActors st) (String c rest) ≠ CallBFS a b).
    { simpl. destruct (findActor (headActors st) (chomp c rest)).
      - rewrite Hbacon. by eexists.
      - by eexists. }
    destruct Hstep as (err1 & Hstep & Hnot).
    destruct (IH (err1 || errSeen)%bool) as (err & Hrest & Hno).
    exists err. split.
    + change (queryLoop st errSeen (String c rest :: queries))
        with (match queryLine st (String c rest) with
              | None => None
              | Some (evs, st', err) =>
                  match queryLoop st' (err || errSeen) queries with
                  | None => None
                  | Some (evs', errSeen') => Some ((evs ++ evs')%list, errSeen')
                  end
              end).
      rewrite Hstep, Hrest. done.
    + intros a b Hin. rewrite fmap_cons in Hin.
      apply elem_of_cons in Hin as [Hin|Hin]; [by eapply Hnot | by eapply Hno].
Qed.

Lemma no_anchor_no_search_witness :
  ∃ err,
    queryLoop strangersStore false [("A" ++ nl)%string; ("Tom Hanks" ++ nl)%string]
    = Some ([Stdout noBacon; Stderr notFound], err) ∧
    ∀ a b, CallBFS a b ∉ [Stdout noBacon; Stderr notFound].
Proof.
  apply (no_anchor_no_search strangersStore
           [("A" ++ nl)%string; ("Tom Hanks" ++ nl)%string] false).
  - reflexivity.
  - repeat constructor; discriminate.
Defined.

Lemma NoDup_bounded (l : list nat) n :
  NoDup l → (∀ x, x ∈ l → x < n) → length l ≤ n.
Proof.
  intros Hnd Hlt. rewrite <- (length_seq n 0). apply submseteq_length.
  apply NoDup_submseteq; [done|]. intros x Hx. apply elem_of_seq.
  specialize (Hlt _ Hx). lia.
Qed.

Lemma clearAll_baseline acts :
  Forall (λ x, visited x = false ∧ level x = (-1)%Z) (clearAll acts).
Proof. unfold clearAll. apply Forall_fmap, Forall_forall. done. Qed.

(** C9. A call with anchor distinct from target first puts every actor of
    the store at [visited = 0], [level = -1], the rest of the node
    untouched, and the loop starts from these fields with the anchor
    marked; what the call returns and the store it leaves are therefore
    the same from any two stores that differ in search fields only, the
    reset store among them, and asking the same question again on the
    store a call has left gives the same value and the same store. *)
Theorem BFS_resets_search_state st a b :
  a ≠ b →
  Forall (λ x, visited x = false ∧ level x = (-1)%Z) (clearAll (headActors st)) ∧
  sameGraph (clearAll (headActors st)) (headActors st) ∧
  (∀ fuel,
     BFSfuel fuel st a b =
     match bfsLoop fuel (movieHeap st) b (mark (clearAll (headActors st)) a 0) [a] with
     | None => None
     | Some (r, acts', enq) =>
         Some (r, Store acts' (movieHeap st) (headMovies st), enq)
     end) ∧
  BFS st a b = BFS (Store (clearAll (headActors st)) (movieHeap st) (headMovies st)) a b ∧
  (∀ st2, sameGraph (headActors st2) (headActors st) →
          movieHeap st2 = movieHeap st → headMovies st2 = headMovies st →
          BFS st2 a b = BFS st a b) ∧
  (∀ r st1, BFS st a b = Some (r, st1) → BFS st1 a b = Some (r, st1)).
Proof.
  intros Hne. split_and!.
  - apply clearAll_baseline.
  - apply sameGraph_clearAll.
  - intros fuel. unfold BFSfuel. by destruct (Nat.eqb_spec a b).
  - symmetry. apply BFS_sameGraph; [done | apply sameGraph_clearAll | done | done].
  - intros st2 Hs Hh Hm. by apply BFS_sameGraph.
  - intros r st1 Hrun. destruct (BFS_frame _ _ _ _ _ Hrun) as (Hs & Hh & Hm).
    by rewrite (BFS_sameGraph st1 st a b Hne Hs Hh Hm).
Qed.

Lemma BFS_resets_search_state_witness :
  2 ≠ 0 ∧
  Forall (λ x, visited x = false ∧ level x = (-1)%Z)
         (clearAll (headActors scenarioStore)) ∧
  (∀ r st1, BFS scenarioStore 2 0 = Some (r, st1) → BFS st1 2 0 = Some (r, st1)).
Proof.
  assert (Hne : 2 ≠ 0) by lia.
  split; [exact Hne|].
  destruct (BFS_resets_search_state scenarioStore 2 0 Hne)
    as (Hreset & _ & _ & _ & _ & Hagain).
  split; [exact Hreset | exact Hagain].
Defined.

Example BFS_scenario_twice :
  ∃ st1, BFS scenarioStore 2 0 = Some (2%Z, st1) ∧ BFS st1 2 0 = Some (2%Z, st1) ∧
         st1 ≠ scenarioStore.
Proof. eexists. split_and!; [vm_compute; reflexivity | vm_compute; reflexivity | done]. Qed.

(** C10. On a graph built by the parser, [BFS] returns: its loop ends
    within one iteration per actor, and more iterations allowed change
    nothing.  No actor goes through the queue twice, so that the queue
    never held more entries than there are actors. *)
Theorem BFS_terminates lines st start target :
  parseFile lines = Some st → start < length (headActors st) →
  ∃ r st' enq,
    (∀ fuel, length (headActors st) ≤ fuel →
             BFSfuel fuel st start target = Some (r, st', enq)) ∧
    BFS st start target = Some (r, st') ∧
    NoDup enq ∧ length enq ≤ length (headActors st).
Proof.
  intros Hparse Hs. pose proof (parseFile_graphInv _ _ Hparse) as HG.
  pose proof (gi_casts _ _ HG) as Hvalid.
  assert (Hrun : ∃ r st' enq,
            BFSfuel (length (headActors st)) st start target = Some (r, st', enq) ∧
            NoDup enq ∧ ∀ x, x ∈ enq → x < length (headActors st)).
  { destruct (decide (start = target)) as [<-|Hne].
    - exists 0%Z, st, []. unfold BFSfuel. rewrite Nat.eqb_refl.
      split_and!; [done | apply NoDup_nil_2 |]. intros x Hx. by apply elem_of_nil in Hx.
    - destruct (BFSfuel_spec st start target _ Hvalid Hs Hne (le_n _))
        as (r & st' & enq & Hrun & _).
      exists r, st', enq. split; [done|]. revert Hrun. unfold BFSfuel.
      destruct (Nat.eqb_spec start target) as [?|_]; [done|].
      destruct (bfsLoop _ _ _ _ _) as [[[r1 acts1] enq1]|] eqn:Hloop; [|done].
      intros [= <- <- <-].
      assert (Hlen : length (mark (clearAll (headActors st)) start 0)
                     = length (headActors st)).
      { rewrite mark_length. unfold clearAll. by rewrite length_fmap. }
      destruct (bfsLoop_enqueued_once _ _ _ _ _ _ _ _
                  ltac:(by rewrite Hlen) ltac:(apply NoDup_singleton)
                  ltac:(intros x Hx; apply list_elem_of_singleton in Hx as ->;
                        apply isVisited_mark_eq; unfold clearAll;
                        by rewrite length_fmap)
                  Hloop) as [Hnd Hin].
      split; [done|]. intros x Hx. rewrite <- Hlen. by apply Hin. }
  destruct Hrun as (r & st' & enq & Hrun & Hnd & Hin).
  exists r, st', enq. split_and!.
  - intros fuel Hfuel. by rewrite (BFS_fuel_enough st start target fuel Hvalid Hs Hfuel).
  - unfold BFS. by rewrite Hrun.
  - done.
  - by apply NoDup_bounded.
Qed.

Lemma BFS_terminates_witness :
  ∃ r st' enq,
    (∀ fuel, length (headActors scenarioStore) ≤ fuel →
             BFSfuel fuel scenarioStore 2 0 = Some (r, st', enq)) ∧
    BFS scenarioStore 2 0 = Some (r, st') ∧
    NoDup enq ∧ length enq ≤ length (headActors scenarioStore).
Proof.
  apply (BFS_terminates scenario scenarioStore 2 0).
  - vm_compute. reflexivity.
  - simpl. lia.
Defined.

Example BFS_scenario_queue :
  ∃ st', BFSfuel 3 scenarioStore 2 0 = Some (2%Z, st', [2; 1]).
Proof. eexists. vm_compute. reflexivity. Qed.

(** * Further properties of the code *)

(** ** Lookup in the store *)

Lemma findActor_lt acts name i : findActor acts name = Some i → i < length acts.
Proof.
  intros Hf. destruct (findActor_Some _ _ _ Hf) as (x & Hx & _).
  by eapply lookup_lt_Some.
Qed.

Lemma findActor_earlier acts name : ∀ i j,
  findActor acts name = Some i → j < i → nameOf acts j ≠ name.
Proof.
  induction acts as [|x acts IH]; intros i j Hf Hj; simpl in Hf; [done|].
  destruct (String.eqb_spec (actorName x) name) as [Heq|Hne].
  - inversion Hf; subst. lia.
  - destruct (findActor acts name) as [i'|] eqn:Hf'; [|done]. simpl in Hf.
    inversion Hf; subst. destruct j as [|j]; [done|].
    apply (IH i' j eq_refl). lia.
Qed.

Lemma findActor_names acts acts' name :
  actorName <$> acts = actorName <$> acts' →
  findActor acts name = findActor acts' name.
Proof.
  revert acts'. induction acts as [|x acts IH]; intros [|y acts'] Hn; try done.
  simpl in Hn. injection Hn as Hxy Hn. simpl. rewrite Hxy.
  destruct (String.eqb (actorName y) name); [done|]. by rewrite (IH acts').
Qed.

Lemma findActor_at acts i x :
  uniqueNames acts → acts !! i = Some x → findActor acts (actorName x) = Some i.
Proof.
  intros Hu Hi. destruct (findActor acts (actorName x)) as [j|] eqn:Hf.
  - destruct (findActor_Some _ _ _ Hf) as (y & Hj & Hy). f_equal.
    apply (NoDup_lookup _ j i (actorName x) Hu); rewrite list_lookup_fmap.
    + by rewrite Hj, <- Hy.
    + by rewrite Hi.
  - exfalso. apply (findActor_None _ _ Hf). apply list_elem_of_fmap.
    exists x. split; [done | by eapply list_elem_of_lookup_2].
Qed.

(** X1. [findActor] returns the first node of the list that carries the
    name, and NULL exactly when no node carries it; [isInLL] answers 1
    exactly when [findActor] finds a node. *)
Theorem findActor_first_match acts name :
  match findActor acts name with
  | Some i => i < length acts ∧ nameOf acts i = name ∧
              ∀ j, j < i → nameOf acts j ≠ name
  | None => ∀ j, j < length acts → nameOf acts j ≠ name
  end ∧
  (isInLL acts name = true ↔ ∃ i, findActor acts name = Some i).
Proof.
  split.
  - destruct (findActor acts name) as [i|] eqn:Hf.
    + split_and!.
      * by eapply findActor_lt.
      * destruct (findActor_Some _ _ _ Hf) as (x & Hx & Hn).
        unfold nameOf. by rewrite Hx.
      * intros j Hj. by eapply findActor_earlier.
    + intros j Hj Hn. apply (findActor_None _ _ Hf).
      destruct (lookup_lt_is_Some_2 _ _ Hj) as [x Hx].
      unfold nameOf in Hn. rewrite Hx in Hn. subst name.
      apply list_elem_of_fmap. exists x. split; [done|].
      by eapply list_elem_of_lookup_2.
  - rewrite isInLL_findActor. unfold is_Some. done.
Qed.

(** X2. In a store built by the parser, looking up the name of any actor of
    the store gives that very actor back. *)
Theorem parsed_actor_found lines st i x :
  parseFile lines = Some st → headActors st !! i = Some x →
  findActor (headActors st) (actorName x) = Some i.
Proof.
  intros Hparse Hi. apply findActor_at; [|done].
  apply (gi_names _ _ (parseFile_graphInv _ _ Hparse)).
Qed.

Lemma parsed_actor_found_witness :
  findActor (headActors scenarioStore) "Ed Harris" = Some 1.
Proof.
  apply (parsed_actor_found scenario scenarioStore 1
           (ActorNode "Ed Harris" [0; 1] false 0)).
  - vm_compute. reflexivity.
  - reflexivity.
Defined.

(** ** The graph of a dataset *)

(** X3. In a store built by the parser every pointer is valid and the two
    directions of the membership relation agree: a movie is in the list of
    an actor exactly when the actor is in the cast of the movie. *)
Theorem parsed_graph_linked lines st a m :
  parseFile lines = Some st →
  (m ∈ moviesOf (headActors st) a → m < length (movieHeap st)) ∧
  (a ∈ castOf (movieHeap st) m → a < length (headActors st)) ∧
  (m ∈ moviesOf (headActors st) a ↔ a ∈ castOf (movieHeap st) m).
Proof.
  intros Hparse. pose proof (parseFile_graphInv _ _ Hparse) as HG.
  split_and!; apply HG.
Qed.

Lemma parsed_graph_linked_witness :
  (1 ∈ moviesOf (headActors scenarioStore) 2 → 1 < length (movieHeap scenarioStore)) ∧
  (2 ∈ castOf (movieHeap scenarioStore) 1 → 2 < length (headActors scenarioStore)) ∧
  (1 ∈ moviesOf (headActors scenarioStore) 2 ↔ 2 ∈ castOf (movieHeap scenarioStore) 1).
Proof.
  apply (parsed_graph_linked scenario scenarioStore 2 1). vm_compute. reflexivity.
Defined.

(** ** The parser, line by line *)

Lemma parseLines_app l1 : ∀ ps l2,
  parseLines ps (l1 ++ l2) =
  match parseLines ps l1 with
  | None => None
  | Some ps' => parseLines ps' l2
  end.
Proof.
  induction l1 as [|raw l1 IH]; intros ps l2; simpl; [done|].
  destruct (parseLine ps raw); [apply IH | done].
Qed.

Lemma parseLine_blank ps raw : blankLine raw = true → parseLine ps raw = Some ps.
Proof. destruct raw as [|c rest]; [done|]. simpl. by intros ->. Qed.

Lemma parseLines_blank pre : ∀ ps,
  Forall (λ raw, blankLine raw = true) pre → parseLines ps pre = Some ps.
Proof.
  induction pre as [|raw pre IH]; intros ps Hpre; simpl; [done|].
  apply Forall_cons in Hpre as [Hraw Hpre]. rewrite (parseLine_blank _ _ Hraw).
  by apply IH.
Qed.

(** What a line that is not skipped does to the state. *)
Lemma parseLine_cases ps raw ps' :
  parseLine ps raw = Some ps' →
  (blankLine raw = true ∧ lineTitle raw = None ∧ lineName raw = None ∧ ps' = ps) ∨
  (∃ title, blankLine raw = false ∧ lineTitle raw = Some title ∧ lineName raw = None ∧
     ps' = PState (Store (headActors (pstore ps))
                         (movieHeap (pstore ps) ++ [MovieNode title []])
                         (headMovies (pstore ps) ++ option_list (pmovie ps)))
                  (Some (length (movieHeap (pstore ps))))) ∨
  (∃ name, blankLine raw = false ∧ lineTitle raw = None ∧ lineName raw = Some name ∧
     actorLine ps name = Some ps').
Proof.
  intros Hstep. destruct raw as [|c rest]; [done|]. simpl in *.
  destruct (isspace c); [left; by inversion Hstep|].
  destruct (containsMovie (chomp c rest)).
  - right. left. unfold movieLine in Hstep.
    destruct (findMovie (chomp c rest)) as [title|]; [|done].
    exists title. split_and!; try done. inversion Hstep; subst. f_equal. f_equal.
    destruct (pmovie ps); simpl; [done | by rewrite app_nil_r].
  - right. right. by exists (chomp c rest).
Qed.

(** What an actor line does to the state. *)
Lemma actorLine_effect ps name ps' :
  actorLine ps name = Some ps' →
  ∃ movie actor base,
    pmovie ps = Some movie ∧
    ((findActor (headActors (pstore ps)) name = Some actor ∧
      base = headActors (pstore ps)) ∨
     (findActor (headActors (pstore ps)) name = None ∧
      actor = length (headActors (pstore ps)) ∧
      base = headActors (pstore ps) ++ [ActorNode name [] false 0])) ∧
    ps' = PState (Store (addMovieToActorsMovies base actor movie)
                        (addActorToMovie (addMovieToActorsMovies base actor movie)
                                         (movieHeap (pstore ps)) movie actor)
                        (headMovies (pstore ps)))
                 (Some movie).
Proof.
  unfold actorLine. intros Hstep. destruct (pmovie ps) as [movie|]; [|done].
  destruct (isInLL (headActors (pstore ps)) name) eqn:Hin.
  - destruct (findActor (headActors (pstore ps)) name) as [actor|] eqn:Hf; [|done].
    exists movie, actor, (headActors (pstore ps)). inversion Hstep; subst.
    split_and!; auto.
  - exists movie, (length (headActors (pstore ps))),
      (headActors (pstore ps) ++ [ActorNode name [] false 0]).
    inversion Hstep; subst. split_and!; try done. right. split_and!; try done.
    destruct (findActor (headActors (pstore ps)) name) eqn:Hf; [|done].
    assert (isInLL (headActors (pstore ps)) name = true)
      by (apply isInLL_findActor; eauto). congruence.
Qed.

Lemma addActor_movieNames acts heap movie actor :
  movieName <$> addActorToMovie acts heap movie actor = movieName <$> heap.
Proof.
  apply list_eq; intros i. unfold addActorToMovie. rewrite !list_lookup_fmap.
  destruct (decide (movie = i)) as [->|Hne].
  - rewrite list_lookup_alter_eq. by destruct (heap !! i).
  - by rewrite list_lookup_alter_ne.
Qed.

(** X4. A line that starts with white space, whatever follows on it,
    changes nothing to what the parser builds. *)
Theorem blank_lines_ignored l1 raw l2 :
  blankLine raw = true → parseFile (l1 ++ raw :: l2) = parseFile (l1 ++ l2).
Proof.
  intros Hraw. unfold parseFile. rewrite !parseLines_app.
  destruct (parseLines _ l1) as [ps|]; [|done]. simpl.
  by rewrite (parseLine_blank _ _ Hraw).
Qed.

Lemma blank_lines_ignored_witness :
  parseFile [("Movie: X" ++ nl)%string; (" Kevin Bacon" ++ nl)%string; ("A" ++ nl)%string]
  = parseFile [("Movie: X" ++ nl)%string; ("A" ++ nl)%string].
Proof.
  apply (blank_lines_ignored [("Movie: X" ++ nl)%string] (" Kevin Bacon" ++ nl)%string
           [("A" ++ nl)%string]).
  reflexivity.
Defined.

(** X5. A dataset whose first line that is not skipped is an actor line
    makes the parser dereference the null [movie] pointer: nothing is
    parsed. *)
Theorem actor_before_header_fails pre raw name post :
  Forall (λ r, blankLine r = true) pre → lineName raw = Some name →
  parseFile (pre ++ raw :: post) = None.
Proof.
  intros Hpre Hname. unfold parseFile. rewrite parseLines_app.
  rewrite (parseLines_blank _ _ Hpre). simpl.
  destruct raw as [|c rest]; [done|]. simpl in *.
  destruct (isspace c); [done|]. by destruct (containsMovie (chomp c rest)).
Qed.

Lemma actor_before_header_fails_witness :
  parseFile [nl; ("Kevin Bacon" ++ nl)%string; ("Movie: X" ++ nl)%string] = None.
Proof.
  apply (actor_before_header_fails [nl] ("Kevin Bacon" ++ nl)%string
           "Kevin Bacon"%string [("Movie: X" ++ nl)%string]).
  - repeat constructor.
  - reflexivity.
Defined.

(** ** What the store holds after parsing *)

Lemma parseLines_movies lines : ∀ ps ps',
  parseLines ps lines = Some ps' →
  movieName <$> movieHeap (pstore ps')
  = (movieName <$> movieHeap (pstore ps)) ++ omap lineTitle lines ∧
  (headMovies (pstore ps) ++ option_list (pmovie ps)
   = seq 0 (length (movieHeap (pstore ps))) →
   headMovies (pstore ps') ++ option_list (pmovie ps')
   = seq 0 (length (movieHeap (pstore ps')))).
Proof.
  induction lines as [|raw lines IH]; intros ps ps' Hrun; simpl in Hrun.
  - inversion Hrun; subst. simpl. by rewrite app_nil_r.
  - destruct (parseLine ps raw) as [ps1|] eqn:Hstep; [|done].
    destruct (IH _ _ Hrun) as [Hnames Hreg]. rewrite Hnames.
    change (omap lineTitle (raw :: lines))
      with (match lineTitle raw with
            | Some t => t :: omap lineTitle lines
            | None => omap lineTitle lines
            end).
    destruct (parseLine_cases _ _ _ Hstep)
      as [(_ & Ht & _ & ->)|[(title & _ & Ht & _ & ->)|(name & _ & Ht & _ & Hact)]];
      rewrite Ht.
    + done.
    + simpl. rewrite fmap_app, <- app_assoc. split; [done|].
      intros H0. apply Hreg. simpl. rewrite H0, length_app. simpl.
      rewrite Nat.add_1_r. by rewrite seq_S.
    + destruct (actorLine_effect _ _ _ Hact) as (movie & actor & base & Hmv & _ & ->).
      simpl in *. rewrite addActor_movieNames in *. split; [done|].
      intros H0. apply Hreg. unfold addActorToMovie. rewrite length_alter.
      by rewrite <- H0, Hmv.
Qed.

Lemma parsed_movies_registered lines st :
  parseFile lines = Some st → headMovies st = seq 0 (length (movieHeap st)).
Proof.
  unfold parseFile. intros Hparse.
  destruct (parseLines _ lines) as [ps|] eqn:Hrun; [|done].
  destruct (parseLines_movies _ _ _ Hrun) as [_ Hreg]. simpl in *.
  specialize (Hreg eq_refl).
  destruct (pmovie ps) as [movie|]; inversion Hparse; subst; simpl in *.
  - done.
  - by rewrite app_nil_r in Hreg.
Qed.

(** X6. The movies of the store are the movie headers of the dataset, one
    movie per header in the order of the headers, under the title of the
    header, also when a title occurs twice; and every one of them is
    linked into [headMovies], once, in the same order. *)
Theorem parsed_movies_are_headers lines st :
  parseFile lines = Some st →
  movieName <$> movieHeap st = omap lineTitle lines ∧
  headMovies st = seq 0 (length (movieHeap st)).
Proof.
  unfold parseFile. intros Hparse.
  destruct (parseLines _ lines) as [ps|] eqn:Hrun; [|done].
  destruct (parseLines_movies _ _ _ Hrun) as [Hnames Hreg]. simpl in *.
  specialize (Hreg eq_refl).
  destruct (pmovie ps) as [movie|]; inversion Hparse; subst; simpl in *.
  - done.
  - by rewrite app_nil_r in Hreg.
Qed.

Lemma parsed_movies_are_headers_witness :
  movieName <$> movieHeap scenarioStore = omap lineTitle scenario ∧
  headMovies scenarioStore = seq 0 (length (movieHeap scenarioStore)).
Proof. apply parsed_movies_are_headers. vm_compute. reflexivity. Defined.

Lemma findActor_elem acts name i :
  findActor acts name = Some i → name ∈ actorName <$> acts.
Proof.
  intros Hf. destruct (findActor_Some _ _ _ Hf) as (x & Hx & <-).
  apply list_elem_of_fmap. exists x. split; [done | by eapply list_elem_of_lookup_2].
Qed.

Lemma parseLines_actors lines : ∀ ps ps',
  parseLines ps lines = Some ps' →
  actorName <$> headActors (pstore ps')
  = (actorName <$> headActors (pstore ps))
    ++ firstSeen (actorName <$> headActors (pstore ps)) (omap lineName lines).
Proof.
  induction lines as [|raw lines IH]; intros ps ps' Hrun; simpl in Hrun.
  - inversion Hrun; subst. simpl. by rewrite app_nil_r.
  - destruct (parseLine ps raw) as [ps1|] eqn:Hstep; [|done].
    rewrite (IH _ _ Hrun).
    change (omap lineName (raw :: lines))
      with (match lineName raw with
            | Some n => n :: omap lineName lines
            | None => omap lineName lines
            end).
    destruct (parseLine_cases _ _ _ Hstep)
      as [(_ & _ & Hn & ->)|[(title & _ & _ & Hn & ->)|(name & _ & _ & Hn & Hact)]];
      rewrite Hn; [done | done |].
    destruct (actorLine_effect _ _ _ Hact)
      as (movie & actor & base & Hmv & [[Hf ->]|(Hf & -> & ->)] & ->);
      simpl; rewrite addMovie_names.
    + rewrite bool_decide_eq_true_2 by by eapply findActor_elem. done.
    + rewrite bool_decide_eq_false_2 by by apply findActor_None.
      rewrite fmap_app. simpl. by rewrite <- app_assoc.
Qed.

(** X7. The actors of the store are the names on the actor lines of the
    dataset, one actor per name, in the order in which the names are first
    met. *)
Theorem parsed_actors_are_names lines st :
  parseFile lines = Some st →
  actorName <$> headActors st = firstSeen [] (omap lineName lines).
Proof.
  unfold parseFile. intros Hparse.
  destruct (parseLines _ lines) as [ps|] eqn:Hrun; [|done].
  pose proof (parseLines_actors _ _ _ Hrun) as Hnames. simpl in Hnames.
  destruct (pmovie ps); inversion Hparse; subst; done.
Qed.

Lemma parsed_actors_are_names_witness :
  actorName <$> headActors scenarioStore = firstSeen [] (omap lineName scenario).
Proof. apply parsed_actors_are_names. vm_compute. reflexivity. Defined.

Lemma parseLines_fields lines : ∀ ps ps',
  parseLines ps lines = Some ps' →
  Forall (λ x, visited x = false ∧ level x = 0%Z ∧ movies x ≠ [])
         (headActors (pstore ps)) →
  Forall (λ x, visited x = false ∧ level x = 0%Z ∧ movies x ≠ [])
         (headActors (pstore ps')).
Proof.
  induction lines as [|raw lines IH]; intros ps ps' Hrun HP; simpl in Hrun.
  - by inversion Hrun; subst.
  - destruct (parseLine ps raw) as [ps1|] eqn:Hstep; [|done].
    apply (IH _ _ Hrun).
    destruct (parseLine_cases _ _ _ Hstep)
      as [(_ & _ & _ & ->)|[(title & _ & _ & _ & ->)|(name & _ & _ & _ & Hact)]];
      [done | done |].
    destruct (actorLine_effect _ _ _ Hact) as (movie & actor & base & Hmv & Hbase & ->).
    simpl. apply Forall_lookup. intros i x Hx.
    unfold addMovieToActorsMovies in Hx.
    assert (Hb : ∀ j y, base !! j = Some y →
                        visited y = false ∧ level y = 0%Z ∧ (j ≠ actor → movies y ≠ [])).
    { intros j y Hy. destruct Hbase as [[_ ->]|(_ & -> & ->)].
      - destruct (proj1 (Forall_lookup _ _) HP j y Hy) as (? & ? & ?). done.
      - apply lookup_app_Some in Hy as [Hy|[Hge Hy]].
        + destruct (proj1 (Forall_lookup _ _) HP j y Hy) as (? & ? & ?). done.
        + destruct (j - length (headActors (pstore ps))) as [|n] eqn:Hj; [|done].
          inversion Hy; subst. simpl. split_and!; try done. intros Hne. lia. }
    destruct (decide (actor = i)) as [->|Hne].
    + rewrite list_lookup_alter_eq in Hx. destruct (base !! i) as [y|] eqn:Hy; [|done].
      inversion Hx; subst. destruct (Hb _ _ Hy) as (? & ? & _). simpl.
      split_and!; try done. by destruct (movies y).
    + rewrite list_lookup_alter_ne in Hx by done.
      destruct (Hb _ _ Hx) as (? & ? & Hm). split_and!; auto.
Qed.

(** X8. After parsing, every actor of the store has [visited = 0] and
    [level = 0] (the level -1 is only set by the reset of a search), and is
    in the cast of at least one movie. *)
Theorem parsed_actor_fields lines st a x :
  parseFile lines = Some st → headActors st !! a = Some x →
  visited x = false ∧ level x = 0%Z ∧
  ∃ m, m ∈ movies x ∧ a ∈ castOf (movieHeap st) m.
Proof.
  intros Hparse Ha. pose proof (parseFile_graphInv _ _ Hparse) as HG.
  revert Hparse. unfold parseFile.
  destruct (parseLines _ lines) as [ps|] eqn:Hrun; [|done]. intros Hparse.
  assert (HP : Forall (λ x, visited x = false ∧ level x = 0%Z ∧ movies x ≠ [])
                      (headActors st)).
  { pose proof (parseLines_fields _ _ _ Hrun (Forall_nil_2 _)) as HP.
    destruct (pmovie ps); inversion Hparse; subst; done. }
  destruct (proj1 (Forall_lookup _ _) HP a x Ha) as (Hv & Hl & Hm).
  split_and!; try done. destruct (movies x) as [|m ms] eqn:Hms; [done|].
  exists m. split; [apply list_elem_of_here|].
  apply (gi_linked _ _ HG). unfold moviesOf. rewrite Ha, Hms. apply list_elem_of_here.
Qed.

Lemma parsed_actor_fields_witness :
  visited (ActorNode "Kevin Bacon" [1] false 0) = false ∧
  level (ActorNode "Kevin Bacon" [1] false 0) = 0%Z ∧
  ∃ m, m ∈ movies (ActorNode "Kevin Bacon" [1] false 0) ∧
       2 ∈ castOf (movieHeap scenarioStore) m.
Proof.
  apply (parsed_actor_fields scenario scenarioStore 2).
  - vm_compute. reflexivity.
  - reflexivity.
Defined.

(** ** How often a link is stored *)

Lemma castWalk_exact acts rest : ∀ cur actor,
  uniqueNames acts → (∀ x, x ∈ cur :: rest → x < length acts) →
  actor < length acts →
  castWalk acts cur rest actor =
  if bool_decide (actor ∈ removelast (cur :: rest)) then cur :: rest
  else (cur :: rest) ++ [actor].
Proof.
  induction rest as [|nxt rest IH]; intros cur actor Hu Hr Ha.
  - change (removelast [cur]) with (@nil nat).
    rewrite bool_decide_eq_false_2 by apply not_elem_of_nil. done.
  - change (removelast (cur :: nxt :: rest)) with (cur :: removelast (nxt :: rest)).
    simpl castWalk.
    destruct (String.eqb_spec (nameOf acts cur) (nameOf acts actor)) as [Heq|Hne].
    + apply nameOf_inj in Heq; [|done|apply Hr, list_elem_of_here|done]. subst.
      rewrite bool_decide_eq_true_2 by apply list_elem_of_here. done.
    + assert (Hca : actor ≠ cur) by (intros ->; done).
      rewrite IH; [|done| |done].
      * destruct (decide (actor ∈ removelast (nxt :: rest))) as [Hin|Hnin].
        -- rewrite !bool_decide_eq_true_2; [done| |done].
           by apply list_elem_of_further.
        -- rewrite !bool_decide_eq_false_2; [done| |done].
           intros Hin. apply elem_of_cons in Hin as [?|?]; done.
      * intros x Hx. by apply Hr, list_elem_of_further.
Qed.

Lemma castAdd_unless_earlier acts cast actor :
  uniqueNames acts → (∀ x, x ∈ cast → x < length acts) → actor < length acts →
  castAdd acts cast actor =
  if bool_decide (actor ∈ removelast cast) then cast else cast ++ [actor].
Proof.
  intros Hu Hr Ha. destruct cast as [|cur rest].
  - change (removelast (@nil nat)) with (@nil nat).
    rewrite bool_decide_eq_false_2 by apply not_elem_of_nil. done.
  - by apply castWalk_exact.
Qed.

(** X9. With one actor per name, [addActorToMovie] leaves the cast as it is
    when the actor occurs in it before its last entry, and appends the
    actor in every other case, the one where the actor is the last entry
    included. *)
Theorem castAdd_exact acts cast actor :
  uniqueNames acts → (∀ x, x ∈ cast → x < length acts) → actor < length acts →
  castAdd acts cast actor =
  if bool_decide (actor ∈ removelast cast) then cast else cast ++ [actor].
Proof. apply castAdd_unless_earlier. Qed.

Lemma castAdd_exact_witness :
  castAdd (headActors scenarioStore) [2; 1] 1 = [2; 1; 1] ∧
  castAdd (headActors scenarioStore) [2; 1] 2 = [2; 1].
Proof.
  assert (Hu : uniqueNames (headActors scenarioStore)).
  { apply (bool_decide_unpack _). vm_compute. exact I. }
  assert (Hr : ∀ x, x ∈ [2; 1] → x < length (headActors scenarioStore)).
  { intros x Hx. simpl.
    apply elem_of_cons in Hx as [->|Hx]; [lia|].
    apply list_elem_of_singleton in Hx as ->. lia. }
  split.
  - apply (castAdd_exact (headActors scenarioStore) [2; 1] 1 Hu Hr). simpl. lia.
  - apply (castAdd_exact (headActors scenarioStore) [2; 1] 2 Hu Hr). simpl. lia.
Defined.

Lemma count_occ_snoc (l : list nat) x a :
  count_occ Nat.eq_dec (l ++ [x]) a
  = count_occ Nat.eq_dec l a + (if decide (x = a) then 1 else 0).
Proof.
  rewrite count_occ_app. simpl.
  destruct (Nat.eq_dec x a), (decide (x = a)); done.
Qed.

Lemma count_occ_le_removelast (l : list nat) a :
  a ∉ removelast l → count_occ Nat.eq_dec l a ≤ 1.
Proof.
  intros Hnin. destruct l as [|y l] using rev_ind; [simpl; lia|].
  rewrite removelast_last in Hnin. rewrite count_occ_snoc.
  rewrite (proj1 (count_occ_not_In Nat.eq_dec l a)).
  - destruct (decide (y = a)); lia.
  - intros Hin. by apply Hnin, list_elem_of_In.
Qed.

Lemma parseLines_cast_twice lines : ∀ ps ps',
  parseInv ps → parseLines ps lines = Some ps' →
  (∀ m a, count_occ Nat.eq_dec (castOf (movieHeap (pstore ps)) m) a ≤ 2) →
  ∀ m a, count_occ Nat.eq_dec (castOf (movieHeap (pstore ps')) m) a ≤ 2.
Proof.
  induction lines as [|raw lines IH]; intros ps ps' HI Hrun HK; simpl in Hrun.
  - by inversion Hrun; subst.
  - destruct (parseLine ps raw) as [ps1|] eqn:Hstep; [|done].
    pose proof (parseLine_inv _ _ _ HI Hstep) as HI1.
    apply (IH _ _ HI1 Hrun). clear IH Hrun. intros m a.
    destruct HI as [HG Hcur].
    destruct (parseLine_cases _ _ _ Hstep)
      as [(_ & _ & _ & ->)|[(title & _ & _ & _ & ->)|(name & _ & _ & _ & Hact)]].
    + apply HK.
    + simpl. unfold castOf. destruct (decide (m < length (movieHeap (pstore ps)))).
      * rewrite lookup_app_l by done. apply HK.
      * rewrite lookup_app_r by lia.
        destruct (m - length (movieHeap (pstore ps))) as [|[|k]]; simpl; lia.
    + destruct HI1 as [HG1 _].
      destruct (actorLine_effect _ _ _ Hact) as (movie & actor & base & Hmv & Hbase & ->).
      simpl in *. specialize (Hcur _ Hmv).
      rewrite castOf_addActor by done.
      destruct (decide (m = movie)) as [->|Hne]; [|apply HK].
      assert (Hlen : length (headActors (pstore ps)) ≤ length base ∧ actor < length base).
      { destruct Hbase as [[Hf ->]|(_ & -> & ->)].
        - split; [done | by eapply findActor_lt].
        - rewrite length_app. simpl. lia. }
      rewrite castAdd_unless_earlier.
      * destruct (decide (actor ∈ removelast (castOf (movieHeap (pstore ps)) movie)))
          as [Hin|Hnin].
        -- rewrite bool_decide_eq_true_2 by done. apply HK.
        -- rewrite bool_decide_eq_false_2 by done. rewrite count_occ_snoc.
           destruct (decide (actor = a)) as [->|_]; [|specialize (HK movie a); lia].
           pose proof (count_occ_le_removelast _ _ Hnin). lia.
      * apply HG1.
      * intros x Hx. rewrite addMovie_length.
        pose proof (gi_casts _ _ HG _ _ Hx). lia.
      * rewrite addMovie_length. lia.
Qed.

(** X10. In a store built by the parser no cast lists the same actor more
    than twice. *)
Theorem parsed_cast_at_most_twice lines st m a :
  parseFile lines = Some st →
  count_occ Nat.eq_dec (castOf (movieHeap st) m) a ≤ 2.
Proof.
  unfold parseFile. intros Hparse.
  destruct (parseLines _ lines) as [ps|] eqn:Hrun; [|done].
  assert (HK : ∀ m a, count_occ Nat.eq_dec (castOf (movieHeap (pstore ps)) m) a ≤ 2).
  { apply (parseLines_cast_twice _ _ _ parseInv_empty Hrun).
    intros m' a'. unfold castOf. simpl. lia. }
  destruct (pmovie ps); inversion Hparse; subst; apply HK.
Qed.

Lemma parsed_cast_at_most_twice_witness :
  count_occ Nat.eq_dec (castOf (movieHeap twiceStore) 0) 0 ≤ 2.
Proof. apply (parsed_cast_at_most_twice twice). vm_compute. reflexivity. Defined.

Lemma firstSeen_elem names : ∀ seen x,
  x ∈ seen ++ firstSeen seen names ↔ x ∈ seen ∨ x ∈ names.
Proof.
  induction names as [|n names IH]; intros seen x; simpl.
  - rewrite app_nil_r, elem_of_nil. tauto.
  - destruct (decide (n ∈ seen)) as [Hin|Hnin].
    + rewrite bool_decide_eq_true_2 by done. rewrite IH, elem_of_cons.
      split; [tauto|]. intros [?|[->|?]]; auto.
    + rewrite bool_decide_eq_false_2 by done.
      rewrite (assoc_L _ seen [n] _ : seen ++ n :: firstSeen (seen ++ [n]) names
                                      = (seen ++ [n]) ++ firstSeen (seen ++ [n]) names).
      rewrite IH, elem_of_app, list_elem_of_singleton, elem_of_cons. tauto.
Qed.

Lemma count_occ_string_snoc (l : list string) x n :
  count_occ string_dec (l ++ [x]) n
  = count_occ string_dec l n + (if decide (x = n) then 1 else 0).
Proof.
  rewrite count_occ_app. simpl.
  destruct (string_dec x n), (decide (x = n)); done.
Qed.

Lemma membership_counts pre : ∀ ps,
  parseLines (PState emptyStore None) pre = Some ps →
  ∀ j y, headActors (pstore ps) !! j = Some y →
         length (movies y) = count_occ string_dec (omap lineName pre) (actorName y).
Proof.
  induction pre as [|raw pre IH] using rev_ind; intros ps Hrun j y Hy.
  - inversion Hrun; subst. done.
  - rewrite parseLines_app in Hrun.
    destruct (parseLines _ pre) as [ps0|] eqn:Hrun0; [|done]. simpl in Hrun.
    destruct (parseLine ps0 raw) as [ps1|] eqn:Hstep; [|done].
    inversion Hrun; subst ps1; clear Hrun.
    specialize (IH ps0 eq_refl). rewrite omap_app.
    change (omap lineName [raw])
      with (match lineName raw with Some n => [n] | None => [] end).
    destruct (parseLine_cases _ _ _ Hstep)
      as [(_ & _ & Hn & ->)|[(title & _ & _ & Hn & ->)|(name & _ & _ & Hn & Hact)]];
      rewrite Hn; [rewrite app_nil_r; by apply (IH j) | rewrite app_nil_r; by apply (IH j) |].
    destruct (parseLines_inv _ _ _ parseInv_empty Hrun0) as [HG0 _].
    pose proof (parseLines_actors _ _ _ Hrun0) as Hnames0. simpl in Hnames0.
    destruct (actorLine_effect _ _ _ Hact) as (movie & actor & base & Hmv & Hbase & ->).
    simpl in Hy. unfold addMovieToActorsMovies in Hy. rewrite count_occ_string_snoc.
    destruct (decide (actor = j)) as [->|Hne].
    + rewrite list_lookup_alter_eq in Hy. destruct (base !! j) as [y0|] eqn:Hy0; [|done].
      inversion Hy; subst y; clear Hy. simpl. rewrite length_app. simpl.
      destruct Hbase as [[Hf ->]|(Hf & -> & ->)].
      * destruct (findActor_Some _ _ _ Hf) as (x & Hx & Hname).
        rewrite Hy0 in Hx. inversion Hx; subst x.
        rewrite (IH _ _ Hy0), Hname. by rewrite decide_True.
      * rewrite lookup_app_r, Nat.sub_diag in Hy0 by done. inversion Hy0; subst y0.
        simpl. rewrite decide_True by done.
        rewrite (proj1 (count_occ_not_In string_dec _ name)); [done|].
        intros Hin. apply (findActor_None _ _ Hf). rewrite Hnames0.
        apply (firstSeen_elem _ [] name). right. by apply list_elem_of_In.
    + rewrite list_lookup_alter_ne in Hy by done.
      assert (Hy0 : headActors (pstore ps0) !! j = Some y ∧ actorName y ≠ name).
      { destruct Hbase as [[Hf ->]|(Hf & -> & ->)].
        - split; [done|]. intros Hname.
          pose proof (findActor_at _ _ _ (gi_names _ _ HG0) Hy) as Hj.
          rewrite Hname, Hf in Hj. by inversion Hj.
        - apply lookup_app_Some in Hy as [Hy|[Hge Hy]].
          + split; [done|]. intros Hname. apply (findActor_None _ _ Hf).
            rewrite <- Hname. apply list_elem_of_fmap. exists y.
            split; [done | by eapply list_elem_of_lookup_2].
          + destruct (j - length (headActors (pstore ps0))) as [|k] eqn:Hk; [lia|done]. }
      destruct Hy0 as [Hy0 Hname]. rewrite (IH _ _ Hy0).
      rewrite decide_False by done. lia.
Qed.

(** X11. In a store built by the parser, the membership list of an actor
    has one entry for every actor line of the dataset that carries the
    name of the actor, repeated lines included. *)
Theorem parsed_membership_per_line lines st j y :
  parseFile lines = Some st → headActors st !! j = Some y →
  length (movies y) = count_occ string_dec (omap lineName lines) (actorName y).
Proof.
  unfold parseFile. intros Hparse Hy.
  destruct (parseLines _ lines) as [ps|] eqn:Hrun; [|done].
  apply (membership_counts _ _ Hrun j).
  destruct (pmovie ps); inversion Hparse; subst; done.
Qed.

Lemma parsed_membership_per_line_witness :
  length (movies (ActorNode "A" [0; 0] false 0))
  = count_occ string_dec (omap lineName twice) "A"%string.
Proof.
  apply (parsed_membership_per_line twice twiceStore 0).
  - vm_compute. reflexivity.
  - reflexivity.
Defined.

(** ** More on the search *)

(** X12. A call of [BFS] changes [visited] and [level] fields only: the
    names, the membership lists, the casts and the list of movies are what
    they were, and so is every lookup by name. *)
Theorem BFS_keeps_graph st a b r st' :
  BFS st a b = Some (r, st') →
  actorName <$> headActors st' = actorName <$> headActors st ∧
  movies <$> headActors st' = movies <$> headActors st ∧
  movieHeap st' = movieHeap st ∧ headMovies st' = headMovies st ∧
  ∀ name, findActor (headActors st') name = findActor (headActors st) name.
Proof.
  intros Hrun. destruct (BFS_frame _ _ _ _ _ Hrun) as ([Hm Hn] & Hh & Hl).
  split_and!; try done. intros name. by apply findActor_names.
Qed.

Lemma BFS_keeps_graph_witness :
  ∃ r st', BFS scenarioStore 2 0 = Some (r, st') ∧
    actorName <$> headActors st' = actorName <$> headActors scenarioStore ∧
    movies <$> headActors st' = movies <$> headActors scenarioStore ∧
    movieHeap st' = movieHeap scenarioStore ∧
    headMovies st' = headMovies scenarioStore ∧
    ∀ name, findActor (headActors st') name
            = findActor (headActors scenarioStore) name.
Proof.
  assert (Hrun : ∃ r st', BFS scenarioStore 2 0 = Some (r, st')).
  { eexists _, _. vm_compute. reflexivity. }
  destruct Hrun as (r & st' & Hrun). exists r, st'. split; [exact Hrun|].
  exact (BFS_keeps_graph scenarioStore 2 0 r st' Hrun).
Defined.

Lemma BFS_answer_of st a b r st' :
  graphInv (headActors st) (movieHeap st) → a < length (headActors st) →
  BFS st a b = Some (r, st') → answer (headActors st) a b r.
Proof.
  intros HG Ha Hrun. destruct (BFS_answer st a b HG Ha) as (r0 & st0 & Hrun0 & Hans).
  rewrite Hrun in Hrun0. by inversion Hrun0; subst.
Qed.

Lemma path_zero E a b : path E a 0 b → a = b.
Proof. by inversion 1. Qed.

Lemma path_one E a b : path E a 1 b ↔ E a b.
Proof.
  split.
  - inversion 1 as [|k c d Hp Hcd]; subst. by apply path_zero in Hp as ->.
  - intros Hab. eapply path_snoc; [apply path_nil | done].
Qed.

(** X13. On a graph built by the parser, two actors of one movie get
    scores that differ by one at most, and one of them has a score exactly
    when the other has. *)
Theorem costars_within_one lines st a b c rb stb rc stc :
  parseFile lines = Some st → a < length (headActors st) →
  sharesMovie (headActors st) b c →
  BFS st a b = Some (rb, stb) → BFS st a c = Some (rc, stc) →
  (rb = (-1)%Z ↔ rc = (-1)%Z) ∧ (rb - rc ≤ 1)%Z ∧ (rc - rb ≤ 1)%Z.
Proof.
  intros Hparse Ha Hbc Hrb Hrc. pose proof (parseFile_graphInv _ _ Hparse) as HG.
  pose proof (BFS_answer_of _ _ _ _ _ HG Ha Hrb) as Hb.
  pose proof (BFS_answer_of _ _ _ _ _ HG Ha Hrc) as Hc.
  assert (Hstep : ∀ x y k, sharesMovie (headActors st) x y →
                    path (sharesMovie (headActors st)) a k x →
                    path (sharesMovie (headActors st)) a (S k) y).
  { intros x y k Hxy Hp. by eapply path_snoc. }
  pose proof (sharesMovie_sym _ _ _ Hbc) as Hcb.
  destruct Hb as [[-> Hnb]|(db & -> & Hpb & Hminb)];
    destruct Hc as [[-> Hnc]|(dc & -> & Hpc & Hminc)].
  - split_and!; [done | lia | lia].
  - exfalso. by apply (Hnb (S dc)), (Hstep c b).
  - exfalso. by apply (Hnc (S db)), (Hstep b c).
  - pose proof (Hminb _ (Hstep c b dc Hcb Hpc)).
    pose proof (Hminc _ (Hstep b c db Hbc Hpb)).
    split_and!; [split; lia | lia | lia].
Qed.

Lemma costars_within_one_witness :
  ∃ rb stb rc stc,
    BFS scenarioStore 2 0 = Some (rb, stb) ∧ BFS scenarioStore 2 1 = Some (rc, stc) ∧
    (rb = (-1)%Z ↔ rc = (-1)%Z) ∧ (rb - rc ≤ 1)%Z ∧ (rc - rb ≤ 1)%Z.
Proof.
  assert (Hb : ∃ rb stb, BFS scenarioStore 2 0 = Some (rb, stb)).
  { eexists _, _. vm_compute. reflexivity. }
  assert (Hc : ∃ rc stc, BFS scenarioStore 2 1 = Some (rc, stc)).
  { eexists _, _. vm_compute. reflexivity. }
  destruct Hb as (rb & stb & Hb). destruct Hc as (rc & stc & Hc).
  exists rb, stb, rc, stc. split; [exact Hb|]. split; [exact Hc|].
  apply (costars_within_one scenario scenarioStore 2 0 1 rb stb rc stc).
  - vm_compute. reflexivity.
  - simpl. lia.
  - exists 0. simpl. split; repeat constructor.
  - exact Hb.
  - exact Hc.
Defined.

(** X14. On a graph built by the parser, [BFS] returns 0 for the anchor
    itself only, and 1 exactly for the other actors that share a movie
    with the anchor. *)
Theorem BFS_zero_and_one lines st a b r st' :
  parseFile lines = Some st → a < length (headActors st) →
  BFS st a b = Some (r, st') →
  (r = 0%Z ↔ a = b) ∧ (r = 1%Z ↔ a ≠ b ∧ sharesMovie (headActors st) a b).
Proof.
  intros Hparse Ha Hrun. pose proof (parseFile_graphInv _ _ Hparse) as HG.
  pose proof (BFS_answer_of _ _ _ _ _ HG Ha Hrun) as Hans.
  destruct Hans as [[-> Hno]|(d & -> & Hp & Hmin)].
  - split; split; try done.
    + intros ->. destruct (Hno 0). apply path_nil.
    + intros [_ Hab]. destruct (Hno 1). by apply path_one.
  - split; split.
    + intros Hd. assert (d = 0) as -> by lia. by apply path_zero in Hp.
    + intros ->. specialize (Hmin 0 (path_nil _ _)). f_equal. lia.
    + intros Hd. assert (d = 1) as -> by lia. split; [|by apply path_one].
      intros ->. specialize (Hmin 0 (path_nil _ _)). lia.
    + intros [Hne Hab]. pose proof (Hmin 1 (proj2 (path_one _ _ _) Hab)).
      destruct d as [|[|d]]; [|done|lia]. by apply path_zero in Hp.
Qed.

Lemma BFS_zero_and_one_witness :
  ∃ r st', BFS scenarioStore 2 1 = Some (r, st') ∧
    (r = 0%Z ↔ 2 = 1) ∧ (r = 1%Z ↔ 2 ≠ 1 ∧ sharesMovie (headActors scenarioStore) 2 1).
Proof.
  assert (Hb : ∃ r st', BFS scenarioStore 2 1 = Some (r, st')).
  { eexists _, _. vm_compute. reflexivity. }
  destruct Hb as (r & st' & Hb). exists r, st'. split; [exact Hb|].
  apply (BFS_zero_and_one scenario scenarioStore 2 1 r st').
  - vm_compute. reflexivity.
  - simpl. lia.
  - exact Hb.
Defined.

(** ** The levels a search leaves *)

Section SearchLevels.

Variable heap : list movieNode.
Variable acts0 : list actorNode.
Variables start target : nat.

Hypothesis castsValid : ∀ a c, costar acts0 heap a c → c < length acts0.

Local Abbreviation Inv := (Inv heap acts0 start target).
Local Abbreviation searchEnd := (searchEnd heap acts0 start target).

Lemma scanCast_end co : ∀ acts q a L,
  Inv acts L (a :: q) → levelOf acts a = L →
  (∀ c, c ∈ co → costar acts0 heap a c) →
  match scanCast a target co acts q with
  | Found l acts' _ => searchEnd l acts'
  | Cont _ _ => True
  end.
Proof.
  induction co as [|c co IH]; intros acts q a L HI Ha Hco; simpl; [done|].
  assert (Hac : costar acts0 heap a c) by apply Hco, list_elem_of_here.
  assert (Hco' : ∀ c', c' ∈ co → costar acts0 heap a c').
  { intros c' Hc'. by apply Hco, list_elem_of_further. }
  destruct (isVisited acts c) eqn:Hc; [by apply (IH acts q a L)|].
  assert (Hlen : c < length acts).
  { rewrite (Inv_length _ _ _ _ _ _ _ HI). by eapply castsValid. }
  assert (Hne : a ≠ c).
  { intros Heq. subst c.
    pose proof (inv_pending _ _ _ _ _ _ _ HI a (list_elem_of_here _ _)). congruence. }
  rewrite Ha. destruct (Nat.eqb_spec c target) as [->|Hct].
  - right. exists acts, L, a, q. rewrite levelOf_mark_eq by done. done.
  - apply (IH _ _ a L); [by apply Inv_enqueue | by rewrite levelOf_mark_ne | done].
Qed.

Lemma scanMovies_end ml : ∀ acts q a L,
  Inv acts L (a :: q) → levelOf acts a = L →
  (∀ m, m ∈ ml → m ∈ moviesOf acts0 a) →
  match scanMovies heap a target ml acts q with
  | Found l acts' _ => searchEnd l acts'
  | Cont _ _ => True
  end.
Proof.
  induction ml as [|m ml IH]; intros acts q a L HI Ha Hml; simpl; [done|].
  assert (Hm : ∀ c, c ∈ castOf heap m → costar acts0 heap a c).
  { intros c Hc. exists m. split; [apply Hml, list_elem_of_here | done]. }
  pose proof (scanCast_end (castOf heap m) acts q a L HI Ha Hm) as Hend.
  pose proof (scanCast_inv heap acts0 start target castsValid
                (castOf heap m) acts q a L HI Ha Hm) as Hinv.
  destruct (scanCast a target (castOf heap m) acts q) as [l acts1 qf|acts1 q1]; [done|].
  destruct Hinv as (HI1 & Ha1 & _).
  apply (IH acts1 q1 a L HI1 Ha1).
  intros m' Hm'. by apply Hml, list_elem_of_further.
Qed.

Lemma bfsLoop_end fuel : ∀ acts q L r acts' enq,
  Inv acts L q →
  match q with [] => True | a :: _ => levelOf acts a = L end →
  bfsLoop fuel heap target acts q = Some (r, acts', enq) →
  searchEnd r acts'.
Proof.
  induction fuel as [|fuel IH]; intros acts q L r acts' enq HI Hhead Hrun.
  - destruct q; simpl in Hrun; [|done]. inversion Hrun; subst. left. eauto.
  - destruct q as [|a q]; simpl in Hrun; [inversion Hrun; subst; left; eauto|].
    assert (Hml : ∀ m, m ∈ moviesOf acts a → m ∈ moviesOf acts0 a).
    { intros m. by rewrite (moviesOf_fmap _ _ _ (inv_graph _ _ _ _ _ _ _ HI)). }
    pose proof (scanMovies_end _ acts q a L HI Hhead Hml) as Hend.
    pose proof (scanMovies_inv heap acts0 start target castsValid
                  _ acts q a L HI Hhead Hml) as Hinv.
    destruct (scanMovies heap a target (moviesOf acts a) acts q)
      as [l acts1 qf|acts1 q1]; [by inversion Hrun; subst|].
    destruct Hinv as (HI1 & Ha1 & Hseen1 & _).
    destruct (bfsLoop fuel heap target acts1 q1) as [[[r2 acts2] enq2]|] eqn:Hrun2; [|done].
    inversion Hrun; subst.
    assert (Hnb : ∀ w, costar acts0 heap a w → isVisited acts1 w = true).
    { intros w (m & Hm & Hw). apply Hseen1.
      rewrite (moviesOf_fmap _ _ _ (inv_graph _ _ _ _ _ _ _ HI)).
      apply list_elem_of_bind. eauto. }
    destruct (Inv_dequeue _ _ _ _ _ _ _ _ HI1 Ha1 Hnb) as (L' & HI' & Hhead').
    by apply (IH acts1 q1 L' r acts' enq2).
Qed.

Lemma Inv_levels acts L p v :
  Inv acts L p → isVisited acts v = true →
  ∃ k : nat, levelOf acts v = Z.of_nat k ∧ shortest (costar acts0 heap) start v k.
Proof.
  intros HI Hv. destruct (inv_path _ _ _ _ _ _ _ HI v Hv) as (k & Hk & Hp).
  exists k. split; [done|]. split; [done|]. intros j Hj.
  destruct (Inv_lower_bound _ _ _ _ _ _ _ _ _ HI Hj) as [Hle _].
  specialize (Hle Hv). lia.
Qed.

Lemma searchEnd_levels r acts' v :
  searchEnd r acts' → isVisited acts' v = true →
  ∃ k : nat, levelOf acts' v = Z.of_nat k ∧ shortest (costar acts0 heap) start v k.
Proof.
  intros [[_ [L HI]]|(acts1 & L & a & q & HI & Ha & Hat & Ht & -> & _)] Hv.
  - by eapply Inv_levels.
  - assert (Hlen : target < length acts1).
    { rewrite (Inv_length _ _ _ _ _ _ _ HI). by eapply castsValid. }
    destruct (decide (v = target)) as [->|Hne].
    + rewrite levelOf_mark_eq by done.
      assert (Hav : isVisited acts1 a = true).
      { apply (inv_pending _ _ _ _ _ _ _ HI), list_elem_of_here. }
      destruct (inv_path _ _ _ _ _ _ _ HI a Hav) as (k & Hk & Hp).
      exists (S k). split; [lia|]. split; [by eapply path_snoc|].
      intros j Hj. destruct (Inv_lower_bound _ _ _ _ _ _ _ _ _ HI Hj) as [_ Hlow].
      specialize (Hlow Ht). lia.
    + rewrite isVisited_mark_ne in Hv by done. rewrite levelOf_mark_ne by done.
      by eapply Inv_levels.
Qed.

Lemma searchEnd_exhausted acts' v :
  searchEnd (-1)%Z acts' →
  isVisited acts' v = true ↔ ∃ k, path (costar acts0 heap) start k v.
Proof.
  intros [[_ [L HI]]|(acts1 & L & a & q & HI & Ha & _ & _ & _ & Hr)].
  - split.
    + intros Hv. destruct (inv_path _ _ _ _ _ _ _ HI v Hv) as (k & _ & Hp). eauto.
    + intros [k Hp]. by eapply Inv_closed_all.
  - exfalso. assert (Hav : isVisited acts1 a = true).
    { apply (inv_pending _ _ _ _ _ _ _ HI), list_elem_of_here. }
    destruct (inv_path _ _ _ _ _ _ _ HI a Hav) as (k & Hk & _). lia.
Qed.

End SearchLevels.

Lemma restLevel_mark acts c l : restLevel acts → restLevel (mark acts c l).
Proof.
  intros HR v x Hx Hv. unfold mark in Hx. destruct (decide (c = v)) as [->|Hne].
  - rewrite list_lookup_alter_eq in Hx. destruct (acts !! v); [|done].
    inversion Hx; subst. done.
  - rewrite list_lookup_alter_ne in Hx by done. by eapply HR.
Qed.

Lemma restLevel_scanCast co : ∀ a target acts q,
  restLevel acts → restLevel (scanActs (scanCast a target co acts q)).
Proof.
  induction co as [|c co IH]; intros a target acts q HR; simpl; [done|].
  destruct (isVisited acts c); [by apply IH|].
  destruct (Nat.eqb c target); simpl; [by apply restLevel_mark|].
  by apply IH, restLevel_mark.
Qed.

Lemma restLevel_scanMovies heap ml : ∀ a target acts q,
  restLevel acts → restLevel (scanActs (scanMovies heap a target ml acts q)).
Proof.
  induction ml as [|m ml IH]; intros a target acts q HR; simpl; [done|].
  pose proof (restLevel_scanCast (castOf heap m) a target acts q HR) as H1.
  destruct (scanCast a target (castOf heap m) acts q); [done|]. by apply IH.
Qed.

Lemma restLevel_bfsLoop fuel : ∀ heap target acts q r acts' enq,
  bfsLoop fuel heap target acts q = Some (r, acts', enq) →
  restLevel acts → restLevel acts'.
Proof.
  induction fuel as [|fuel IH]; intros heap target acts q r acts' enq Hrun HR.
  - destruct q; simpl in Hrun; [|done]. by inversion Hrun; subst.
  - destruct q as [|a q]; simpl in Hrun; [by inversion Hrun; subst|].
    pose proof (restLevel_scanMovies heap (moviesOf acts a) a target acts q HR) as H1.
    destruct (scanMovies heap a target (moviesOf acts a) acts q)
      as [l acts1 qf|acts1 q1]; [by inversion Hrun; subst|].
    destruct (bfsLoop fuel heap target acts1 q1) as [[[r2 acts2] enq2]|] eqn:Hrun2; [|done].
    inversion Hrun; subst. by eapply IH.
Qed.

Lemma restLevel_clearAll acts : restLevel (clearAll acts).
Proof.
  intros v x Hx _. unfold clearAll in Hx. rewrite list_lookup_fmap in Hx.
  destruct (acts !! v); [|done]. by inversion Hx; subst.
Qed.

(** X15. On a graph built by the parser, a call of [BFS] for a target other
    than the anchor leaves in the [level] field of every actor it marked
    the length of a shortest chain of shared movies from the anchor to
    that actor, and -1 in the field of every actor it did not mark; when
    it returns -1, the actors it marked are exactly those a chain leads
    to. *)
Theorem BFS_levels_are_distances lines st a b r st' v :
  parseFile lines = Some st → a < length (headActors st) → a ≠ b →
  BFS st a b = Some (r, st') → v < length (headActors st) →
  (isVisited (headActors st') v = true →
   ∃ k : nat, levelOf (headActors st') v = Z.of_nat k ∧
              shortest (sharesMovie (headActors st)) a v k) ∧
  (isVisited (headActors st') v = false → levelOf (headActors st') v = (-1)%Z) ∧
  (r = (-1)%Z →
   isVisited (headActors st') v = true ↔
   ∃ k, path (sharesMovie (headActors st)) a k v).
Proof.
  intros Hparse Ha Hne Hrun Hv. pose proof (parseFile_graphInv _ _ Hparse) as HG.
  assert (Hcv : ∀ x c, costar (headActors st) (movieHeap st) x c →
                       c < length (headActors st)).
  { intros x c (m & _ & Hc). by eapply (gi_casts _ _ HG). }
  assert (H1 : ∀ w k, path (costar (headActors st) (movieHeap st)) a k w →
                      path (sharesMovie (headActors st)) a k w).
  { intros w k. apply path_ext. intros x y. by apply costar_sharesMovie. }
  assert (H2 : ∀ w k, path (sharesMovie (headActors st)) a k w →
                      path (costar (headActors st) (movieHeap st)) a k w).
  { intros w k. apply path_ext. intros x y. by apply costar_sharesMovie. }
  revert Hrun. unfold BFS, BFSfuel.
  destruct (Nat.eqb_spec a b) as [?|_]; [done|].
  destruct (bfsLoop _ _ _ _ _) as [[[r1 acts1] enq]|] eqn:Hloop; [|done].
  simpl. intros [= <- <-]. simpl.
  assert (Hend : searchEnd (movieHeap st) (headActors st) a b r1 acts1).
  { eapply (bfsLoop_end _ _ _ _ Hcv _ _ _ 0%Z); [by apply Inv_init| |exact Hloop].
    simpl. apply levelOf_mark_eq. unfold clearAll. by rewrite length_fmap. }
  assert (HR : restLevel acts1).
  { eapply restLevel_bfsLoop; [exact Hloop|]. apply restLevel_mark, restLevel_clearAll. }
  split_and!.
  - intros Hvis.
    destruct (searchEnd_levels _ _ _ _ Hcv _ _ _ Hend Hvis) as (k & Hk & Hp & Hmin).
    exists k. split; [done|]. split; [by apply H1|]. intros j Hj. by apply Hmin, H2.
  - intros Hvis. unfold isVisited in Hvis. unfold levelOf.
    destruct (acts1 !! v) as [x|] eqn:Hx.
    + by eapply HR.
    + apply lookup_ge_None_1 in Hx.
      pose proof (bfsLoop_frame _ _ _ _ _ _ _ _ Hloop) as Hs.
      apply sameGraph_length in Hs. rewrite mark_length in Hs.
      unfold clearAll in Hs. rewrite length_fmap in Hs. lia.
  - intros ->. rewrite (searchEnd_exhausted _ _ _ _ _ _ Hend).
    split; intros [k Hp]; exists k; auto.
Qed.

Lemma BFS_levels_are_distances_witness :
  ∃ r st', BFS islandsStore 0 1 = Some (r, st') ∧
    (isVisited (headActors st') 1 = false → levelOf (headActors st') 1 = (-1)%Z) ∧
    (isVisited (headActors st') 0 = true →
     ∃ k : nat, levelOf (headActors st') 0 = Z.of_nat k ∧
                shortest (sharesMovie (headActors islandsStore)) 0 0 k).
Proof.
  assert (Hb : ∃ r st', BFS islandsStore 0 1 = Some (r, st')).
  { eexists _, _. vm_compute. reflexivity. }
  destruct Hb as (r & st' & Hb). exists r, st'. split; [exact Hb|].
  assert (Hp : parseFile islands = Some islandsStore) by (vm_compute; reflexivity).
  split.
  - apply (BFS_levels_are_distances islands islandsStore 0 1 r st' 1 Hp);
      [simpl; lia | lia | exact Hb | simpl; lia].
  - apply (BFS_levels_are_distances islands islandsStore 0 1 r st' 0 Hp);
      [simpl; lia | lia | exact Hb | simpl; lia].
Defined.

(** ** The queries of a run *)

Lemma graphInv_search_fields acts acts' heap :
  sameGraph acts' acts → graphInv acts heap → graphInv acts' heap.
Proof.
  intros Hs HG. pose proof (sameGraph_length _ _ Hs) as Hlen. destruct Hs as [Hm Hn].
  split.
  - unfold uniqueNames. rewrite Hn. apply HG.
  - intros a m. rewrite (moviesOf_fmap _ _ a Hm). apply HG.
  - intros m c. rewrite Hlen. apply HG.
  - intros a m. rewrite (moviesOf_fmap _ _ a Hm). apply HG.
Qed.

(** A query on a store that differs from [st] in search fields only. *)
Lemma queryLine_search_fields st st1 raw :
  graphInv (headActors st) (movieHeap st) →
  sameGraph (headActors st1) (headActors st) →
  movieHeap st1 = movieHeap st → headMovies st1 = headMovies st →
  raw ≠ EmptyString →
  ∃ st2, queryLine st1 raw = Some (queryEvents st raw, st2, queryFails st raw) ∧
         sameGraph (headActors st2) (headActors st) ∧
         movieHeap st2 = movieHeap st ∧ headMovies st2 = headMovies st.
Proof.
  intros HG Hs Hh Hm Hraw. destruct raw as [|c rest]; [done|].
  unfold queryEvents, queryFails. simpl.
  rewrite !(findActor_names (headActors st1) (headActors st)) by apply Hs.
  destruct (findActor (headActors st) (chomp c rest)) as [actor|] eqn:Hfa; [|by eexists].
  destruct (findActor (headActors st) "Kevin Bacon") as [bacon|] eqn:Hfb; [|by eexists].
  pose proof (findActor_lt _ _ _ Hfb) as Hb.
  destruct (BFS_answer st bacon actor HG Hb) as (r & st' & Hrun & _). rewrite Hrun.
  destruct (decide (bacon = actor)) as [->|Hne].
  - rewrite BFS_refl in Hrun. inversion Hrun; subst. rewrite BFS_refl. by eexists.
  - rewrite (BFS_sameGraph st1 st bacon actor Hne Hs Hh Hm), Hrun.
    eexists. split; [done|]. by eapply BFS_frame.
Qed.

Lemma queryLoop_search_fields st queries : ∀ st1 errSeen,
  graphInv (headActors st) (movieHeap st) →
  sameGraph (headActors st1) (headActors st) →
  movieHeap st1 = movieHeap st → headMovies st1 = headMovies st →
  Forall (λ raw, raw ≠ EmptyString) queries →
  queryLoop st1 errSeen queries
  = Some (queries ≫= queryEvents st, (existsb (queryFails st) queries || errSeen)%bool).
Proof.
  induction queries as [|raw queries IH]; intros st1 errSeen HG Hs Hh Hm Hq; [done|].
  apply Forall_cons in Hq as [Hraw Hq].
  destruct (queryLine_search_fields st st1 raw HG Hs Hh Hm Hraw)
    as (st2 & Hstep & Hs2 & Hh2 & Hm2).
  change (queryLoop st1 errSeen (raw :: queries))
    with (match queryLine st1 raw with
          | None => None
          | Some (evs, st', err) =>
              match queryLoop st' (err || errSeen) queries with
              | None => None
              | Some (evs', errSeen') => Some ((evs ++ evs')%list, errSeen')
              end
          end).
  rewrite Hstep, (IH st2 _ HG Hs2 Hh2 Hm2 Hq). simpl.
  by rewrite orb_assoc, (orb_comm (existsb _ _)).
Qed.

(** X16. After a dataset is parsed, every query is answered as if it were
    the only one: what a run writes is, query after query, what each
    query alone writes on the store as parsed, and the run sets [errSeen]
    exactly when some query names an actor that is not in the store. *)
Theorem queries_are_independent dataset st queries :
  parseFile dataset = Some st →
  Forall (λ raw, raw ≠ EmptyString) queries →
  queryLoop st false queries
  = Some (queries ≫= queryEvents st, existsb (queryFails st) queries) ∧
  ∀ c rest, queryFails st (String c rest) = true ↔
            findActor (headActors st) (chomp c rest) = None.
Proof.
  intros Hparse Hq. pose proof (parseFile_graphInv _ _ Hparse) as HG. split.
  - rewrite (queryLoop_search_fields st queries st false HG); try done.
    by rewrite orb_false_r.
  - intros c rest. unfold queryFails. simpl.
    destruct (findActor (headActors st) (chomp c rest)) as [actor|]; [|done].
    destruct (findActor (headActors st) "Kevin Bacon") as [bacon|]; [|done].
    by destruct (BFS st bacon actor) as [[r st']|].
Qed.

Lemma queries_are_independent_witness :
  queryLoop scenarioStore false [("Russell Crowe" ++ nl)%string; ("Tom Hanks" ++ nl)%string]
  = Some ([("Russell Crowe" ++ nl)%string; ("Tom Hanks" ++ nl)%string]
            ≫= queryEvents scenarioStore,
          existsb (queryFails scenarioStore)
            [("Russell Crowe" ++ nl)%string; ("Tom Hanks" ++ nl)%string]).
Proof.
  apply (queries_are_independent scenario scenarioStore).
  - vm_compute. reflexivity.
  - repeat constructor; discriminate.
Defined.

(** X17. On a graph built by the parser that has an actor named
    "Kevin Bacon", a query for a name of the store calls [BFS] once, from
    that actor to the named one, and prints "Score: " followed by the
    length of a shortest chain of shared movies between them in decimal,
    or "Score: No Bacon!" when there is no chain. *)
Theorem query_prints_distance dataset st bacon actor c rest :
  parseFile dataset = Some st →
  findActor (headActors st) "Kevin Bacon" = Some bacon →
  findActor (headActors st) (chomp c rest) = Some actor →
  (∃ d : nat, shortest (sharesMovie (headActors st)) bacon actor d ∧
     queryEvents st (String c rest)
     = [CallBFS bacon actor;
        Stdout ("Score: " ++ pretty (Z.of_nat d) ++ nl)%string]) ∨
  ((∀ k, ¬ path (sharesMovie (headActors st)) bacon k actor) ∧
   queryEvents st (String c rest) = [CallBFS bacon actor; Stdout noBacon]).
Proof.
  intros Hparse Hfb Hfa. pose proof (parseFile_graphInv _ _ Hparse) as HG.
  pose proof (findActor_lt _ _ _ Hfb) as Hb.
  destruct (BFS_answer st bacon actor HG Hb) as (r & st' & Hrun & Hans).
  unfold queryEvents. simpl. rewrite Hfa, Hfb, Hrun.
  destruct Hans as [[-> Hno]|(d & -> & Hd)].
  - by right.
  - left. exists d. split; [done|].
    destruct (Z.eqb_spec (Z.of_nat d) (-1)) as [?|_]; [lia | done].
Qed.

Lemma query_prints_distance_witness :
  (∃ d : nat, shortest (sharesMovie (headActors scenarioStore)) 2 0 d ∧
     queryEvents scenarioStore ("Russell Crowe" ++ nl)
     = [CallBFS 2 0; Stdout ("Score: " ++ pretty (Z.of_nat d) ++ nl)%string]) ∨
  ((∀ k, ¬ path (sharesMovie (headActors scenarioStore)) 2 k 0) ∧
   queryEvents scenarioStore ("Russell Crowe" ++ nl)
   = [CallBFS 2 0; Stdout noBacon]).
Proof.
  apply (query_prints_distance scenario scenarioStore 2 0
           "R"%char ("ussell Crowe" ++ nl)%string).
  - vm_compute. reflexivity.
  - reflexivity.
  - vm_compute. reflexivity.
Defined.

(** ** The end of a line *)

Lemma lastChar_snoc s : ∀ c d, lastChar c (s ++ String d EmptyString) = d.
Proof. induction s as [|e s IH]; intros c d; simpl; [done | apply IH]. Qed.

Lemma dropLast_snoc s : ∀ c d, dropLast c (s ++ String d EmptyString) = String c s.
Proof.
  induction s as [|e s IH]; intros c d; simpl; [done|]. f_equal. apply IH.
Qed.

(** X18. Exactly one newline is taken off the end of a line, and a line
    that does not end with a newline (the last line of a file can be one)
    is read, by the parser and by the query loop, as the same line with
    the newline. *)
Theorem newline_is_optional c s :
  chomp c (s ++ nl) = String c s ∧
  (lastChar c s ≠ newline →
   (∀ ps, parseLine ps (String c (s ++ nl)) = parseLine ps (String c s)) ∧
   (∀ st, queryLine st (String c (s ++ nl)) = queryLine st (String c s))).
Proof.
  assert (H1 : chomp c (s ++ nl) = String c s).
  { unfold chomp, nl. rewrite lastChar_snoc, dropLast_snoc.
    by rewrite Ascii.eqb_refl. }
  split; [done|]. intros Hlast.
  assert (H2 : chomp c s = String c s).
  { unfold chomp. by destruct (Ascii.eqb_spec (lastChar c s) newline). }
  split; intros x; simpl; by rewrite H1, H2.
Qed.

Lemma newline_is_optional_witness :
  chomp "E" ("d Harris" ++ nl) = "Ed Harris"%string ∧
  queryLine scenarioStore ("Ed Harris" ++ nl) = queryLine scenarioStore "Ed Harris".
Proof.
  destruct (newline_is_optional "E"%char "d Harris"%string) as [H1 H2]. split.
  - exact H1.
  - apply H2. discriminate.
Defined.

(** ** The queue *)

Lemma foldl_enqueue xs : ∀ q, foldl enqueue q xs = q ++ xs.
Proof.
  induction xs as [|x xs IH]; intros q; simpl; [by rewrite app_nil_r|].
  rewrite IH. unfold enqueue. by rewrite <- app_assoc.
Qed.

(** X19. The queue is first in, first out: after any actors are enqueued
    on a queue, [dequeue] hands out the oldest entry and leaves the others
    in the order of their arrival. *)
Theorem queue_is_fifo q xs :
  dequeue (foldl enqueue q xs) =
  match q ++ xs with
  | [] => None
  | a :: rest => Some (a, rest)
  end ∧
  ∀ a, dequeue (foldl enqueue (a :: q) xs) = Some (a, foldl enqueue q xs).
Proof.
  split.
  - by rewrite foldl_enqueue.
  - intros a. by rewrite !foldl_enqueue.
Qed.

(** ** The command line *)

Lemma argLoop_cons arg rest file mo mult :
  argLoop (arg :: rest) file mo mult =
  if String.eqb "-l" arg then
    if Z.ltb 1 (mult + 1) then ArgsError ("Too many optional Arguments." ++ nl)%string
    else argLoop rest file 1 (mult + 1)
  else
    match file with
    | None => argLoop rest (Some arg) mo mult
    | Some _ => ArgsError ("Too many Files were given." ++ nl)%string
    end.
Proof. reflexivity. Qed.

Lemma argLoop_spec args : ∀ file mo k,
  k ≤ 1 →
  match argLoop args file mo (Z.of_nat k) with
  | ArgsError _ =>
      2 ≤ k + length (filter (λ a, a = "-l"%string) args) ∨
      2 ≤ length (option_list file ++ filter (λ a, a ≠ "-l"%string) args)
  | ArgsOk f _ =>
      k + length (filter (λ a, a = "-l"%string) args) ≤ 1 ∧
      length (option_list file ++ filter (λ a, a ≠ "-l"%string) args) ≤ 1 ∧
      f = head (option_list file ++ filter (λ a, a ≠ "-l"%string) args)
  end.
Proof.
  induction args as [|arg args IH]; intros file mo k Hk.
  - rewrite !filter_nil, app_nil_r. simpl.
    destruct file; simpl; split_and!; try done; lia.
  - rewrite argLoop_cons. destruct (String.eqb_spec "-l" arg) as [<-|Hne].
    + rewrite filter_cons_True by done. rewrite filter_cons_False by (intros H; done).
      destruct (Z.ltb_spec 1 (Z.of_nat k + 1)) as [Hlt|Hge].
      * left. simpl. lia.
      * assert (k = 0) as -> by lia.
        specialize (IH file 1%Z 1 (le_n _)).
        change (Z.of_nat 0 + 1)%Z with (Z.of_nat 1).
        destruct (argLoop args file 1 (Z.of_nat 1)).
        -- destruct IH as [H|H]; [left; simpl; lia | by right].
        -- destruct IH as (H1 & H2 & H3). split_and!; [simpl; lia | done | done].
    + rewrite filter_cons_False by (intros ->; done).
      rewrite filter_cons_True by (intros ->; done).
      destruct file as [path|].
      * right. simpl. lia.
      * specialize (IH (Some arg) mo k Hk).
        destruct (argLoop args (Some arg) mo (Z.of_nat k)); exact IH.
Qed.

Lemma argLoop_start args :
  match argLoop args None 0 0 with
  | ArgsError _ =>
      2 ≤ length (filter (λ a, a = "-l"%string) args) ∨
      2 ≤ length (filter (λ a, a ≠ "-l"%string) args)
  | ArgsOk f _ =>
      length (filter (λ a, a = "-l"%string) args) ≤ 1 ∧
      length (filter (λ a, a ≠ "-l"%string) args) ≤ 1 ∧
      f = head (filter (λ a, a ≠ "-l"%string) args)
  end.
Proof. exact (argLoop_spec args None 0%Z 0 (le_S _ _ (le_n _))). Qed.

(** X20. With one argument that is not "-l" and "-l" at most once, in any
    position, [main] opens the file of that argument: it reports a file
    that cannot be opened with exit status 1, and otherwise parses the
    file and answers the queries; "-l" changes nothing. *)
Theorem main_accepts fs prog args path stdin :
  length (filter (λ a, a = "-l"%string) args) ≤ 1 →
  filter (λ a, a ≠ "-l"%string) args = [path] →
  main fs (prog :: args) stdin =
  match fs path with
  | None => Some ([Stderr ("Could not Open the File." ++ nl)%string], 1%Z)
  | Some dataset => run dataset stdin
  end.
Proof.
  intros Hflags Hfiles. unfold main. simpl tail.
  pose proof (argLoop_start args) as Hspec. rewrite Hfiles in Hspec.
  destruct (argLoop args None 0 0) as [msg|f mo].
  - destruct Hspec as [?|Hf]; [lia | simpl in Hf; lia].
  - destruct Hspec as (_ & _ & ->). done.
Qed.

Lemma main_accepts_witness :
  main (λ _, Some scenario) ["bacon"%string; "-l"%string; "movies.txt"%string]
       [("Ed Harris" ++ nl)%string]
  = run scenario [("Ed Harris" ++ nl)%string].
Proof.
  apply (main_accepts (λ _, Some scenario) "bacon"%string
           ["-l"%string; "movies.txt"%string] "movies.txt"%string).
  - vm_compute. lia.
  - reflexivity.
Defined.

Lemma argLoop_message args : ∀ file mo mult msg,
  argLoop args file mo mult = ArgsError msg →
  msg = ("Too many optional Arguments." ++ nl)%string ∨
  msg = ("Too many Files were given." ++ nl)%string.
Proof.
  induction args as [|arg args IH]; intros file mo mult msg; [done|].
  rewrite argLoop_cons. destruct (String.eqb "-l" arg).
  - destruct (Z.ltb 1 (mult + 1)); [intros [= <-]; by left | apply IH].
  - destruct file; [intros [= <-]; by right | apply IH].
Qed.

(** X21. With "-l" twice or with two arguments that are not "-l", [main]
    writes one of its two complaints about arguments on the standard
    error and returns 1; no file is parsed and no query is read. *)
Theorem main_rejects fs prog args stdin :
  2 ≤ length (filter (λ a, a = "-l"%string) args) ∨
  2 ≤ length (filter (λ a, a ≠ "-l"%string) args) →
  ∃ msg, (msg = ("Too many optional Arguments." ++ nl)%string ∨
          msg = ("Too many Files were given." ++ nl)%string) ∧
         main fs (prog :: args) stdin = Some ([Stderr msg], 1%Z).
Proof.
  intros Hmany. unfold main. simpl tail.
  pose proof (argLoop_start args) as Hspec.
  destruct (argLoop args None 0 0) as [msg|f mo] eqn:Hloop.
  - exists msg. split; [by eapply argLoop_message | done].
  - destruct Hspec as (? & ? & _). lia.
Qed.

Lemma main_rejects_witness :
  ∃ msg, (msg = ("Too many optional Arguments." ++ nl)%string ∨
          msg = ("Too many Files were given." ++ nl)%string) ∧
         main (λ _, Some scenario) ["bacon"%string; "a.txt"%string; "b.txt"%string] []
         = Some ([Stderr msg], 1%Z).
Proof.
  apply (main_rejects (λ _, Some scenario) "bacon"%string
           ["a.txt"%string; "b.txt"%string] []).
  right. vm_compute. lia.
Defined.

(** ** The debug print *)

(** X22. On a store built by the parser, [printActorsWithMovies] prints
    every link of the graph: for every movie in the list of an actor, the
    block of lines of that movie is part of the print, and the line of the
    actor is in that block. *)
Theorem print_shows_every_link lines st a m :
  parseFile lines = Some st → m ∈ moviesOf (headActors st) a →
  (∃ before after,
     printActorsWithMovies st = before ++ printMovie st m ++ after) ∧
  head (printMovie st m) = Some ("MOVIE: " ++ movieNameOf (movieHeap st) m ++ nl)%string ∧
  (tab ++ "ACTOR: " ++ nameOf (headActors st) a ++ nl)%string ∈ printMovie st m.
Proof.
  intros Hparse Hm. pose proof (parseFile_graphInv _ _ Hparse) as HG.
  pose proof (parsed_movies_registered _ _ Hparse) as Hreg.
  split_and!.
  - assert (Hin : m ∈ headMovies st).
    { rewrite Hreg. apply elem_of_seq. pose proof (gi_movies _ _ HG _ _ Hm). lia. }
    apply list_elem_of_split in Hin as (l1 & l2 & Hsplit).
    exists (l1 ≫= printMovie st), (l2 ≫= printMovie st).
    unfold printActorsWithMovies. rewrite Hsplit, bind_app, bind_cons. done.
  - done.
  - unfold printMovie. apply list_elem_of_further.
    apply (list_elem_of_fmap_2 (λ c, tab ++ "ACTOR: " ++ nameOf (headActors st) c ++ nl)%string).
    by apply (gi_linked _ _ HG).
Qed.

Lemma print_shows_every_link_witness :
  (∃ before after,
     printActorsWithMovies scenarioStore = before ++ printMovie scenarioStore 1 ++ after) ∧
  head (printMovie scenarioStore 1) = Some ("MOVIE: X-Men" ++ nl)%string ∧
  (tab ++ "ACTOR: Kevin Bacon" ++ nl)%string ∈ printMovie scenarioStore 1.
Proof.
  apply (print_shows_every_link scenario scenarioStore 2 1).
  - vm_compute. reflexivity.
  - simpl. repeat constructor.
Defined.

(** ** Who is in which movie *)

Lemma nameOf_fmap acts acts' a :
  actorName <$> acts = actorName <$> acts' → nameOf acts a = nameOf acts' a.
Proof.
  intros H. assert (Hi : (actorName <$> acts) !! a = (actorName <$> acts') !! a)
    by by rewrite H.
  rewrite !list_lookup_fmap in Hi. unfold nameOf.
  destruct (acts !! a), (acts' !! a); simpl in Hi; congruence.
Qed.

Lemma nameOf_elem acts a : a < length acts → nameOf acts a ∈ actorName <$> acts.
Proof.
  intros Ha. destruct (lookup_lt_is_Some_2 _ _ Ha) as [x Hx].
  unfold nameOf. rewrite Hx. apply list_elem_of_fmap. exists x.
  split; [done | by eapply list_elem_of_lookup_2].
Qed.

Lemma castOf_alloc heap title m :
  castOf (heap ++ [MovieNode title []]) m = castOf heap m.
Proof.
  unfold castOf. destruct (decide (m < length heap)) as [Hlt|Hge].
  - by rewrite lookup_app_l.
  - rewrite lookup_app_r by lia. rewrite (lookup_ge_None_2 heap) by lia.
    by destruct (m - length heap) as [|k].
Qed.

Lemma sectionInv_header ps acc title :
  sectionInv ps acc →
  sectionInv (PState (Store (headActors (pstore ps))
                            (movieHeap (pstore ps) ++ [MovieNode title []])
                            (headMovies (pstore ps) ++ option_list (pmovie ps)))
                     (Some (length (movieHeap (pstore ps)))))
             (acc ++ [[]]).
Proof.
  intros HS. pose proof (si_len _ _ HS) as Hlen. split; simpl.
  - rewrite !length_app. simpl. lia.
  - rewrite Hlen. destruct acc as [|x acc]; simpl; [done|].
    rewrite length_app. simpl. f_equal. lia.
  - intros m names n Hm Hn. apply lookup_app_Some in Hm as [Hm|[Hge Hm]].
    + by eapply (si_known _ _ HS).
    + destruct (m - length acc) as [|k]; [|done]. inversion Hm; subst.
      by apply elem_of_nil in Hn.
  - intros m a. rewrite castOf_alloc, (si_cast _ _ HS). split.
    + intros (Ha & names & Hm & Hn). split; [done|]. exists names.
      split; [by apply lookup_app_l_Some | done].
    + intros (Ha & names & Hm & Hn). split; [done|]. exists names. split; [|done].
      apply lookup_app_Some in Hm as [Hm|[Hge Hm]]; [done|].
      destruct (m - length acc) as [|k]; [|done]. inversion Hm; subst.
      by apply elem_of_nil in Hn.
Qed.

Lemma sectionInv_actor ps acc name ps' :
  parseInv ps → parseInv ps' → sectionInv ps acc →
  actorLine ps name = Some ps' →
  sectionInv ps' (alter (λ names, names ++ [name]) (length acc - 1) acc).
Proof.
  intros [HG Hcur] [HG' _] HS Hact.
  destruct (actorLine_effect _ _ _ Hact) as (movie & actor & base & Hmv & Hbase & ->).
  simpl in HG'. specialize (Hcur _ Hmv).
  pose proof (si_len _ _ HS) as Hlen. pose proof (si_cur _ _ HS) as Hc.
  rewrite Hmv in Hc. destruct acc as [|x0 acc0] eqn:Hacc; [done|]. rewrite <- Hacc in *.
  assert (Hmovie : movie = length acc - 1) by (rewrite Hacc in *; congruence).
  rewrite <- Hmovie. clear Hc.
  set (acts := headActors (pstore ps)) in *. set (heap := movieHeap (pstore ps)) in *.
  set (acts1 := addMovieToActorsMovies base actor movie) in *.
  assert (Hbase' : length acts ≤ length base ∧ actor < length base ∧
                   nameOf base actor = name ∧
                   (∀ a, a < length acts → nameOf base a = nameOf acts a) ∧
                   (∀ a, a < length base → length acts ≤ a → a = actor ∧
                         name ∉ actorName <$> acts)).
  { destruct Hbase as [[Hf ->]|(Hf & -> & ->)].
    - destruct (findActor_Some _ _ _ Hf) as (x & Hx & Hn).
      split_and!; [done | by eapply findActor_lt | | done | intros; lia].
      unfold nameOf. fold acts. by rewrite Hx.
    - rewrite length_app. simpl. split_and!; [lia | lia | | |].
      + unfold nameOf. fold acts. by rewrite lookup_app_r, Nat.sub_diag.
      + intros a Ha. unfold nameOf. by rewrite lookup_app_l.
      + intros a Ha1 Ha2. split; [lia | by apply findActor_None]. }
  destruct Hbase' as (Hle & Hactor & Hname & Hold & Hnew).
  assert (Hn1 : ∀ a, nameOf acts1 a = nameOf base a).
  { intros a. apply nameOf_fmap, addMovie_names. }
  assert (Hl1 : length acts1 = length base) by apply addMovie_length.
  assert (Hadd : ∀ c, c ∈ castAdd acts1 (castOf heap movie) actor ↔
                      c ∈ castOf heap movie ∨ c = actor).
  { intros c. apply castAdd_elem; [apply HG' | | lia].
    intros y Hy. pose proof (gi_casts _ _ HG _ _ Hy). fold acts in H. lia. }
  assert (Hmacc : movie < length acc) by (rewrite <- Hlen; done).
  split; simpl.
  - unfold addActorToMovie. by rewrite !length_alter.
  - rewrite Hacc. simpl. rewrite length_alter. rewrite Hacc in Hmovie. simpl in Hmovie.
    destruct (alter _ _ _) eqn:Halt; [|by rewrite Hmovie].
    apply (f_equal length) in Halt. rewrite length_alter in Halt. done.
  - intros m names n Hm Hn. fold acts1. unfold acts1. rewrite addMovie_names.
    assert (Hsub : ∀ y, y ∈ actorName <$> acts → y ∈ actorName <$> base).
    { intros y Hy. destruct Hbase as [[_ ->]|(_ & _ & ->)]; [done|].
      rewrite fmap_app. apply elem_of_app. by left. }
    destruct (decide (movie = m)) as [<-|Hne].
    + rewrite list_lookup_alter_eq in Hm.
      destruct (acc !! movie) as [old|] eqn:Hold'; [|done]. simpl in Hm.
      injection Hm as <-. apply elem_of_app in Hn as [Hn|Hn].
      * apply Hsub. by eapply (si_known _ _ HS).
      * apply list_elem_of_singleton in Hn as ->. rewrite <- Hname.
        by apply nameOf_elem.
    + rewrite list_lookup_alter_ne in Hm by done.
      apply Hsub. by eapply (si_known _ _ HS).
  - intros m a. fold acts1. rewrite castOf_addActor by done. rewrite Hl1.
    destruct (decide (m = movie)) as [->|Hne].
    + rewrite Hadd, list_lookup_alter_eq. split.
      * intros [Hin| ->].
        -- apply (si_cast _ _ HS) in Hin as (Ha & names & Hm & Hn). fold acts in Ha.
           split; [lia|]. exists (names ++ [name]). rewrite Hm. split; [done|].
           rewrite Hn1, Hold by done. apply elem_of_app. by left.
        -- split; [done|]. destruct (lookup_lt_is_Some_2 _ _ Hmacc) as [names Hm].
           exists (names ++ [name]). rewrite Hm. split; [done|].
           rewrite Hn1, Hname. apply elem_of_app. right. apply list_elem_of_here.
      * intros (Ha & names' & Hm & Hn).
        destruct (acc !! movie) as [names|] eqn:Hm0; [|done]. inversion Hm; subst names'.
        rewrite Hn1 in Hn.
        destruct (decide (nameOf base a = name)) as [Heq|Hneq].
        -- right. apply (nameOf_inj acts1); [apply HG' | lia | lia |].
           by rewrite !Hn1, Hname.
        -- left. apply elem_of_app in Hn as [Hn|Hn];
             [|by apply list_elem_of_singleton in Hn].
           destruct (decide (a < length acts)) as [Hlt|Hge].
           ++ apply (si_cast _ _ HS). split; [done|]. exists names.
              split; [done|]. by rewrite <- Hold.
           ++ destruct (Hnew a Ha ltac:(lia)) as [-> _]. done.
    + rewrite list_lookup_alter_ne by done. unfold heap.
      rewrite (si_cast _ _ HS). fold acts. split.
      * intros (Ha & names & Hm & Hn). split; [lia|]. exists names.
        split; [done|]. by rewrite Hn1, Hold.
      * intros (Ha & names & Hm & Hn). rewrite Hn1 in Hn.
        destruct (decide (a < length acts)) as [Hlt|Hge].
        -- split; [done|]. exists names. split; [done|]. by rewrite <- Hold.
        -- destruct (Hnew a Ha ltac:(lia)) as [-> Hfresh]. exfalso. apply Hfresh.
           rewrite Hname in Hn. by eapply (si_known _ _ HS).
Qed.

Lemma sectionInv_lines lines : ∀ ps acc ps',
  parseInv ps → sectionInv ps acc → parseLines ps lines = Some ps' →
  sectionInv ps' (foldl sectionStep acc lines).
Proof.
  induction lines as [|raw lines IH]; intros ps acc ps' HI HS Hrun; simpl in Hrun.
  - by inversion Hrun; subst.
  - destruct (parseLine ps raw) as [ps1|] eqn:Hstep; [|done].
    pose proof (parseLine_inv _ _ _ HI Hstep) as HI1.
    simpl. apply (IH ps1 _ ps' HI1); [|done]. unfold sectionStep.
    destruct (parseLine_cases _ _ _ Hstep)
      as [(_ & Ht & Hn & ->)|[(title & _ & Ht & Hn & ->)|(name & _ & Ht & Hn & Hact)]];
      rewrite Ht; try rewrite Hn.
    + done.
    + by apply sectionInv_header.
    + by apply (sectionInv_actor ps).
Qed.

(** X23. In a store built by the parser, an actor is in the cast of the
    movie of the [m]-th header, and that movie in the list of the actor,
    exactly when the name of the actor is on an actor line between that
    header and the next one. *)
Theorem parsed_cast_is_section lines st m a :
  parseFile lines = Some st → a < length (headActors st) →
  (a ∈ castOf (movieHeap st) m ↔
   ∃ names, sections lines !! m = Some names ∧ nameOf (headActors st) a ∈ names) ∧
  (m ∈ moviesOf (headActors st) a ↔ a ∈ castOf (movieHeap st) m).
Proof.
  intros Hparse Ha. pose proof (parseFile_graphInv _ _ Hparse) as HG.
  split; [|apply HG]. revert Hparse Ha. unfold parseFile.
  destruct (parseLines _ lines) as [ps|] eqn:Hrun; [|done]. intros Hparse Ha.
  assert (HS0 : sectionInv (PState emptyStore None) []).
  { split; simpl; try done.
    intros m' a'. unfold castOf. simpl. rewrite elem_of_nil. split; [done|]. lia. }
  pose proof (sectionInv_lines _ _ _ _ parseInv_empty HS0 Hrun) as HS.
  fold (sections lines) in HS.
  assert (Hst : headActors st = headActors (pstore ps) ∧
                movieHeap st = movieHeap (pstore ps)).
  { destruct (pmovie ps); inversion Hparse; subst; done. }
  destruct Hst as [Hacts Hheap]. rewrite Hacts, Hheap in *.
  rewrite (si_cast _ _ HS). split; [by intros [_ ?] | by split].
Qed.

Lemma parsed_cast_is_section_witness :
  (1 ∈ castOf (movieHeap scenarioStore) 1 ↔
   ∃ names, sections scenario !! 1 = Some names ∧
            nameOf (headActors scenarioStore) 1 ∈ names) ∧
  (1 ∈ moviesOf (headActors scenarioStore) 1 ↔ 1 ∈ castOf (movieHeap scenarioStore) 1).
Proof.
  apply (parsed_cast_is_section scenario scenarioStore 1 1).
  - vm_compute. reflexivity.
  - simpl. lia.
Defined.

(** ** How large a score can be *)

Lemma moviesOf_lt acts a m : m ∈ moviesOf acts a → a < length acts.
Proof.
  unfold moviesOf. destruct (acts !! a) eqn:Ha; [|by rewrite elem_of_nil].
  intros _. by eapply lookup_lt_Some.
Qed.

Lemma shortest_levels (E : nat → nat → Prop) a n :
  a < n → (∀ x y, E x y → y < n) →
  ∀ k v, shortest E a v k →
  ∃ l : list nat, NoDup l ∧ length l = S k ∧
                  ∀ x, x ∈ l → x < n ∧ ∃ j, j ≤ k ∧ shortest E a x j.
Proof.
  intros Ha HE. induction k as [|k IH]; intros v [Hp Hmin].
  - apply path_zero in Hp as <-. exists [a]. split_and!; [apply NoDup_singleton | done |].
    intros x Hx. apply list_elem_of_singleton in Hx as ->. split; [done|].
    exists 0. split; [done|]. split; [apply path_nil | lia].
  - inversion Hp as [|k' b v' Hpb Hbv]; subst.
    assert (Hb : shortest E a b k).
    { split; [done|]. intros j Hj.
      specialize (Hmin (S j) (path_snoc _ _ _ _ _ Hj Hbv)). lia. }
    destruct (IH b Hb) as (l & Hnd & Hlen & Hl).
    exists (v :: l). split_and!.
    + apply NoDup_cons. split; [|done]. intros Hin.
      destruct (Hl _ Hin) as (_ & j & Hj & Hpj & _). specialize (Hmin _ Hpj). lia.
    + simpl. by rewrite Hlen.
    + intros x Hx. apply elem_of_cons in Hx as [->|Hx].
      * split; [by eapply HE|]. exists (S k). by split.
      * destruct (Hl _ Hx) as (Hlt & j & Hj & Hs). split; [done|].
        exists j. split; [lia | done].
Qed.

(** X24. On a graph built by the parser, what [BFS] returns is -1 or a
    length below the number of actors of the store. *)
Theorem BFS_score_bound lines st a b r st' :
  parseFile lines = Some st → a < length (headActors st) →
  BFS st a b = Some (r, st') →
  (-1 ≤ r < Z.of_nat (length (headActors st)))%Z.
Proof.
  intros Hparse Ha Hrun. pose proof (parseFile_graphInv _ _ Hparse) as HG.
  destruct (BFS_answer_of _ _ _ _ _ HG Ha Hrun) as [[-> _]|(d & -> & Hd)]; [lia|].
  destruct (shortest_levels (sharesMovie (headActors st)) a _ Ha) with (k := d) (v := b)
    as (l & Hnd & Hlen & Hl); [|done|].
  - intros x y (m & _ & Hy). by eapply moviesOf_lt.
  - assert (length l ≤ length (headActors st)).
    { apply NoDup_bounded; [done|]. intros x Hx. by destruct (Hl _ Hx). }
    lia.
Qed.

Lemma BFS_score_bound_witness :
  ∃ r st', BFS scenarioStore 2 0 = Some (r, st') ∧
           (-1 ≤ r < Z.of_nat (length (headActors scenarioStore)))%Z.
Proof.
  assert (Hb : ∃ r st', BFS scenarioStore 2 0 = Some (r, st')).
  { eexists _, _. vm_compute. reflexivity. }
  destruct Hb as (r & st' & Hb). exists r, st'. split; [exact Hb|].
  apply (BFS_score_bound scenario scenarioStore 2 0 r st').
  - vm_compute. reflexivity.
  - simpl. lia.
  - exact Hb.
Defined.
